(** * pg::observer (observer.h): subjects, observer owners, handles, blockers

    A shallow embedding of the header [observer.h] and the properties of
    its teardown protocol, dispatch order, removal search, arity
    adaptation, relay connections and subject blockers.

    Objects live at addresses.  An address is a natural number handed out
    by an allocation counter; an object that was destroyed is absent from
    its table, and touching it is undefined behaviour. *)

From stdpp Require Import gmap list fin_maps strings.
From Stdlib Require Import ZArith.

Local Open Scope Z_scope.
Local Open Scope nat_scope.

(** ** Outcomes *)

(** What a call does: it returns, it is refused by the compiler
    ([static_assert], ill-typed call), it runs into undefined behaviour
    (a destroyed object is used, [erase(end())], an invalidated iterator),
    or the model ran out of recursion depth. *)
Inductive result (A : Type) : Type :=
  | Ok (a : A)
  | Rejected
  | Undefined
  | OutOfFuel.
Arguments Ok {A} a.
Arguments Rejected {A}.
Arguments Undefined {A}.
Arguments OutOfFuel {A}.

#[global] Instance result_bind : MBind result := λ A B k r,
  match r with
  | Ok a => k a
  | Rejected => Rejected
  | Undefined => Undefined
  | OutOfFuel => OutOfFuel
  end.

#[global] Instance result_ret : MRet result := λ A a, Ok a.

(** A reference to an object that may have been destroyed. *)
Definition deref {A : Type} (o : option A) : result A :=
  match o with
  | Some a => Ok a
  | None => Undefined
  end.

(** ** Published arguments *)

Inductive value : Type :=
  | VInt (z : Z)
  | VStr (s : string)
  | VBool (b : bool)
  | VDouble (hi lo : Z).

Module pg_detail.

(** [get_first< N, TUPLE >( t )]: the tuple of the elements 0..N of [t];
    the recursion stops at [N == -1].  The template argument is an [int];
    [std::get< N >] does not compile outside the tuple. *)
Fixpoint get_first_upto {A : Type} (m : nat) (t : list A) : option (list A) :=
  match m with
  | 0 => Some []
  | S m' =>
      match get_first_upto m' t, t !! m' with
      | Some front, Some x => Some (front ++ [x])
      | _, _ => None
      end
  end.

Definition get_first {A : Type} (N : Z) (t : list A) : option (list A) :=
  if (N <? -1)%Z then None else get_first_upto (Z.to_nat (N + 1)) t.

(** [get_first_n< N >( args... )], with its
    [static_assert( N <= sizeof...( args ) )]. *)
Definition get_first_n {A : Type} (N : nat) (args : list A) : option (list A) :=
  if bool_decide (N ≤ length args)
  then get_first (Z.of_nat N - 1) args
  else None.

End pg_detail.

(** ** The dispatch sequence of a subject *)

Definition address := nat.

(** [std::find_if( first, last, p )] as the distance of the result from
    [first]; [None] is [last]. *)
Fixpoint find_if {A : Type} (p : A → bool) (l : list A) : option nat :=
  match l with
  | [] => None
  | x :: l' => if p x then Some 0 else S <$> find_if p l'
  end.

Module subject_ops.

(** [subject::remove_observer( o )] on the vector [m_observers]: the
    search runs over [rbegin()..rend()]; the reverse iterator at distance
    [r] from [rbegin()] designates the element [size - 1 - r], and
    [( ++it_find ).base()] is the forward iterator to that same element. *)
Definition remove_observer (o : address) (m_observers : list address)
  : list address :=
  match find_if (λ o1, bool_decide (o1 = o)) (reverse m_observers) with
  | Some r => delete (length m_observers - 1 - r) m_observers
  | None => m_observers
  end.

(** [subject::add_observer( o )]: [m_observers.push_back( o )]. *)
Definition add_observer (o : address) (m_observers : list address)
  : list address :=
  m_observers ++ [o].

End subject_ops.

(** ** Objects *)

(** What the callable behind a connection does when it is invoked.  The
    library only sees an opaque callable; the three shapes below are the
    ones the properties need: user code that leaves the library's objects
    alone (such as [log.push( x )]), the lambda of the subject-to-subject
    overload, and user code that calls [owner.disconnect( h )]. *)
Inductive body : Type :=
  | Passive
  | Relay (s2 : address)
  | Disconnect (owner h : address).

(** A callable with [function_arity< F >] (or [sizeof...( Ao )] for a
    member function). *)
Record target : Type := Target {
  function_arity : nat;
  t_body : body
}.

(** The local class [observer], derived from [abstract_observer< A... >]
    and [observer_handle]. *)
Record observer : Type := Observer {
  m_owner : address;
  m_subject : address;
  m_function : target
}.

(** [subject< A... >]: [sizeof...( A )] and the vector [m_observers]. *)
Record subject : Type := Subject {
  sizeof_args : nat;
  m_observers : list address
}.

(** [subject_blocker< S >]. *)
Record subject_blocker : Type := Blocker {
  b_subject : address;
  b_observers : list address
}.

(** The heap.  [owners] maps an [observer_owner] to its
    [std::set< std::unique_ptr< observer_handle > >], kept as the list of
    the owned addresses in ascending order (the order of the comparator).
    [calls] records each invocation of a target with the arguments it
    received, [freed] each run of [~observer_handle]. *)
Record state : Type := State {
  observers : gmap address observer;
  subjects : gmap address subject;
  owners : gmap address (list address);
  blockers : gmap address subject_blocker;
  brk : address;
  calls : list (address * list value);
  freed : list address
}.

Definition empty_state : state :=
  State ∅ ∅ ∅ ∅ 0 [] [].

Definition with_observers (f : gmap address observer → gmap address observer)
    (st : state) : state :=
  State (f (observers st)) (subjects st) (owners st) (blockers st)
        (brk st) (calls st) (freed st).

Definition with_subjects (f : gmap address subject → gmap address subject)
    (st : state) : state :=
  State (observers st) (f (subjects st)) (owners st) (blockers st)
        (brk st) (calls st) (freed st).

Definition with_owners (f : gmap address (list address) → gmap address (list address))
    (st : state) : state :=
  State (observers st) (subjects st) (f (owners st)) (blockers st)
        (brk st) (calls st) (freed st).

Definition with_blockers
    (f : gmap address subject_blocker → gmap address subject_blocker)
    (st : state) : state :=
  State (observers st) (subjects st) (owners st) (f (blockers st))
        (brk st) (calls st) (freed st).

Definition with_brk (n : address) (st : state) : state :=
  State (observers st) (subjects st) (owners st) (blockers st)
        n (calls st) (freed st).

Definition with_calls (c : list (address * list value)) (st : state) : state :=
  State (observers st) (subjects st) (owners st) (blockers st)
        (brk st) c (freed st).

Definition with_freed (d : list address) (st : state) : state :=
  State (observers st) (subjects st) (owners st) (blockers st)
        (brk st) (calls st) d.

(** The dispatch sequence of [s], empty for a destroyed subject. *)
Definition dispatch (st : state) (s : address) : list address :=
  match subjects st !! s with
  | Some sub => m_observers sub
  | None => []
  end.

(** The ownership set of [o]. *)
Definition owned (st : state) (o : address) : list address :=
  default [] (owners st !! o).

(** ** The ordered set of an owner *)

Fixpoint set_insert (h : address) (X : list address) : list address :=
  match X with
  | [] => [h]
  | x :: X' =>
      if bool_decide (h < x) then h :: X
      else if bool_decide (h = x) then X
      else x :: set_insert h X'
  end.

Definition set_erase (h : address) (X : list address) : list address :=
  filter (λ x, x ≠ h) X.

(** [for( auto& o : range ) f( o )] with a body that may fail. *)
Fixpoint for_each {A : Type} (f : A → state → result state) (l : list A)
    (st : state) : result state :=
  match l with
  | [] => Ok st
  | x :: l' => st' ← f x st; for_each f l' st'
  end.

(** ** Construction *)

(** Subjects, owners and blockers are members or locals of the caller, who
    chooses where they live; only the handles are allocated by the library
    ([std::make_unique]), at the address [brk]. *)
Definition new_subject (s : address) (n_args : nat) (st : state) : state :=
  with_subjects (λ m, <[s := Subject n_args []]> m) st.

Definition new_owner (owner : address) (st : state) : state :=
  with_owners (λ m, <[owner := []]> m) st.

(** ** observer_handle and abstract_observer *)

(** [abstract_observer::remove_from_subject]:
    [m_subject.remove_observer( this )]. *)
Definition remove_from_subject (h : address) (st : state) : result state :=
  ob ← deref (observers st !! h);
  sub ← deref (subjects st !! m_subject ob);
  Ok (with_subjects
        (λ m, <[m_subject ob :=
                  Subject (sizeof_args sub)
                    (subject_ops.remove_observer h (m_observers sub))]> m)
        st).

Module observer_owner.

(** [observer_owner::remove_observer( o )]: [find] then [erase]; erasing
    the iterator of a handle that is not in the set is [erase( end() )].
    Erasing the [unique_ptr] destroys the handle. *)
Definition remove_observer (owner h : address) (st : state) : result state :=
  X ← deref (owners st !! owner);
  if bool_decide (h ∈ X)
  then Ok (with_freed (freed st ++ [h])
            (with_observers (delete h)
              (with_owners (λ m, <[owner := set_erase h X]> m) st)))
  else Undefined.

(** The private [connect( s, std::unique_ptr< O > && )] behind the three
    public overloads, together with the [static_assert] of
    [get_first_n] that the [notify] of the local class instantiates. *)
Definition connect (owner s : address) (f : target) (st : state)
  : result (address * state) :=
  X ← deref (owners st !! owner);
  sub ← deref (subjects st !! s);
  if bool_decide (function_arity f ≤ sizeof_args sub)
  then
    let raw_o := brk st in
    Ok (raw_o,
        with_brk (S raw_o)
          (with_owners (λ m, <[owner := set_insert raw_o X]> m)
            (with_subjects
               (λ m, <[s := Subject (sizeof_args sub)
                             (subject_ops.add_observer raw_o (m_observers sub))]> m)
               (with_observers (λ m, <[raw_o := Observer owner s f]> m) st))))
  else Rejected.

(** [connect( s1, s2 )]: the lambda takes [As2 &&...] and calls
    [s2.notify]. *)
Definition connect_subject (owner s1 s2 : address) (st : state)
  : result (address * state) :=
  sub2 ← deref (subjects st !! s2);
  connect owner s1 (Target (sizeof_args sub2) (Relay s2)) st.

(** [disconnect( o )]. *)
Definition disconnect (owner h : address) (st : state) : result state :=
  st1 ← remove_from_subject h st;
  remove_observer owner h st1.

(** [~observer_owner]: the loop, then the members are destroyed, and with
    the set every handle it still holds. *)
Definition destroy (owner : address) (st : state) : result state :=
  X ← deref (owners st !! owner);
  st1 ← for_each remove_from_subject X st;
  Ok (with_freed (freed st1 ++ X)
       (with_observers (λ m, foldr delete m X)
         (with_owners (delete owner) st1))).

End observer_owner.

(** [observer_handle::remove_from_owner]:
    [m_owner.remove_observer( this )]. *)
Definition remove_from_owner (h : address) (st : state) : result state :=
  ob ← deref (observers st !! h);
  observer_owner.remove_observer (m_owner ob) h st.

(** ** subject *)

(** [~subject]. *)
Definition destroy_subject (s : address) (st : state) : result state :=
  sub ← deref (subjects st !! s);
  st1 ← for_each remove_from_owner (m_observers sub) st;
  Ok (with_subjects (delete s) st1).

(** The virtual [notify( As... args )] of a connection: the target gets
    [get_first_n] of the arguments.  [notify_subject] is the recursive
    call of a relay. *)
Definition observer_notify
    (notify_subject : address → list value → state → result state)
    (h : address) (args : list value) (st : state) : result state :=
  ob ← deref (observers st !! h);
  match pg_detail.get_first_n (function_arity (m_function ob)) args with
  | None => Rejected
  | Some args' =>
      let st1 := with_calls (calls st ++ [(h, args')]) st in
      match t_body (m_function ob) with
      | Passive => Ok st1
      | Relay s2 => notify_subject s2 args' st1
      | Disconnect owner h' => observer_owner.disconnect owner h' st1
      end
  end.

(** After a callback returns, the range-for goes on with the iterators it
    took when the pass started.  [erase], [push_back] and the destruction
    of the subject invalidate them. *)
Definition iterators_valid (s : address) (at_start : list address)
    (st : state) : result state :=
  match subjects st !! s with
  | Some sub =>
      if bool_decide (m_observers sub = at_start) then Ok st else Undefined
  | None => Undefined
  end.

(** [subject::notify( args... )].  A relay may call back into a subject
    that is being notified; [fuel] bounds the depth of the calls. *)
Fixpoint notify (fuel : nat) (s : address) (args : list value) (st : state)
    : result state :=
  match fuel with
  | 0 => OutOfFuel
  | S fuel' =>
      sub ← deref (subjects st !! s);
      if bool_decide (length args = sizeof_args sub)
      then
        for_each
          (λ h st',
             st'' ← observer_notify (notify fuel') h args st';
             iterators_valid s (m_observers sub) st'')
          (m_observers sub) st
      else Rejected
  end.

(** ** subject_blocker *)

(** The constructor: the member [m_observers] starts empty and is swapped
    with the subject's. *)
Definition block (b s : address) (st : state) : result state :=
  sub ← deref (subjects st !! s);
  Ok (with_blockers (λ m, <[b := Blocker s (m_observers sub)]> m)
        (with_subjects (λ m, <[s := Subject (sizeof_args sub) []]> m) st)).

(** The destructor: swap back; what the subject held goes away with the
    blocker. *)
Definition unblock (b : address) (st : state) : result state :=
  bl ← deref (blockers st !! b);
  sub ← deref (subjects st !! b_subject bl);
  Ok (with_blockers (delete b)
        (with_subjects
           (λ m, <[b_subject bl := Subject (sizeof_args sub) (b_observers bl)]> m)
           st)).

(** ** Sequences of connects *)

(** [connect] applied to each (owner, callable) of [cs] in turn, on the
    subject [s]; the handles come back in the order of the calls. *)
Fixpoint connect_all (s : address) (cs : list (address * target)) (st : state)
    : result (list address * state) :=
  match cs with
  | [] => Ok ([], st)
  | (owner, f) :: cs' =>
      '(h, st1) ← observer_owner.connect owner s f st;
      '(hs, st2) ← connect_all s cs' st1;
      Ok (h :: hs, st2)
  end.

(** The arity of the callable behind [h], and the invocation of [h] that a
    pass with [args] records. *)
Definition arity_of (st : state) (h : address) : nat :=
  match observers st !! h with
  | Some ob => function_arity (m_function ob)
  | None => 0
  end.

Definition invocation (st : state) (args : list value) (h : address)
    : address * list value :=
  (h, take (arity_of st h) args).

(** ** Invariants *)

(** A handle that sits in the saved sequence of a live blocker. *)
Definition hidden (st : state) (h : address) : Prop :=
  ∃ b bl, blockers st !! b = Some bl ∧ h ∈ b_observers bl.

(** The callable behind [h] leaves the library's objects alone. *)
Definition passive (st : state) (h : address) : Prop :=
  ∃ ob, observers st !! h = Some ob ∧ t_body (m_function ob) = Passive.

(** No callable in the heap disconnects. *)
Definition quiet (st : state) : Prop :=
  ∀ h ob, observers st !! h = Some ob →
    ∀ owner h', t_body (m_function ob) ≠ Disconnect owner h'.

(** The registries agree with the heap: a handle is alive exactly while
    its owner holds it, every entry of a dispatch sequence or of a saved
    sequence is an alive handle of that subject, and no handle occurs
    twice among the sequences. *)
Record inv (st : state) : Prop := Inv {
  inv_live : ∀ h ob, observers st !! h = Some ob → h ∈ owned st (m_owner ob);
  inv_own : ∀ o h, h ∈ owned st o →
    ∃ ob, observers st !! h = Some ob ∧ m_owner ob = o;
  inv_own_nodup : ∀ o, NoDup (owned st o);
  inv_seq : ∀ s h, h ∈ dispatch st s →
    ∃ ob, observers st !! h = Some ob ∧ m_subject ob = s;
  inv_seq_nodup : ∀ s, NoDup (dispatch st s);
  inv_saved : ∀ b bl h, blockers st !! b = Some bl → h ∈ b_observers bl →
    ∃ ob, observers st !! h = Some ob ∧ m_subject ob = b_subject bl;
  inv_saved_nodup : ∀ b bl, blockers st !! b = Some bl → NoDup (b_observers bl);
  inv_saved_disj : ∀ b b' bl bl' h, b ≠ b' →
    blockers st !! b = Some bl → blockers st !! b' = Some bl' →
    h ∈ b_observers bl → h ∉ b_observers bl';
  inv_seq_saved : ∀ s h, h ∈ dispatch st s → ¬ hidden st h;
  inv_fresh : ∀ h : address, brk st ≤ h → observers st !! h = None
}.

(** In addition every alive handle is in the dispatch sequence of its
    subject: nothing is hidden by a blocker, nothing was dropped by one. *)
Record wf (st : state) : Prop := Wf {
  wf_inv : inv st;
  wf_attached : ∀ h ob, observers st !! h = Some ob →
    h ∈ dispatch st (m_subject ob)
}.

(** ** The public operations as a transition system *)

(** Each step is a call that returns.  A handle is disconnected, and an
    owner destroyed, only while no blocker holds the handles concerned;
    [notify] runs with callables that do not disconnect. *)
Inductive step : state → state → Prop :=
  | step_new_subject s n st :
      subjects st !! s = None →
      step st (new_subject s n st)
  | step_new_owner o st :
      owners st !! o = None →
      step st (new_owner o st)
  | step_connect o s f h st st' :
      (∀ owner h', t_body f ≠ Disconnect owner h') →
      observer_owner.connect o s f st = Ok (h, st') →
      step st st'
  | step_disconnect o h st st' :
      ¬ hidden st h →
      observer_owner.disconnect o h st = Ok st' →
      step st st'
  | step_notify fuel s args st st' :
      notify fuel s args st = Ok st' →
      step st st'
  | step_block b s st st' :
      blockers st !! b = None →
      block b s st = Ok st' →
      step st st'
  | step_unblock b st st' :
      unblock b st = Ok st' →
      step st st'
  | step_destroy_owner o st st' :
      (∀ h, h ∈ owned st o → ¬ hidden st h) →
      observer_owner.destroy o st = Ok st' →
      step st st'
  | step_destroy_subject s st st' :
      destroy_subject s st = Ok st' →
      step st st'.

Inductive reachable : state → Prop :=
  | reachable_empty : reachable empty_state
  | reachable_step st st' : reachable st → step st st' → reachable st'.

(** The same transitions without the two side conditions on blockers and
    with any callable. *)
Inductive step_any : state → state → Prop :=
  | any_new_subject s n st :
      subjects st !! s = None → step_any st (new_subject s n st)
  | any_new_owner o st :
      owners st !! o = None → step_any st (new_owner o st)
  | any_connect o s f h st st' :
      observer_owner.connect o s f st = Ok (h, st') → step_any st st'
  | any_disconnect o h st st' :
      observer_owner.disconnect o h st = Ok st' → step_any st st'
  | any_notify fuel s args st st' :
      notify fuel s args st = Ok st' → step_any st st'
  | any_block b s st st' :
      blockers st !! b = None → block b s st = Ok st' → step_any st st'
  | any_unblock b st st' :
      unblock b st = Ok st' → step_any st st'
  | any_destroy_owner o st st' :
      observer_owner.destroy o st = Ok st' → step_any st st'
  | any_destroy_subject s st st' :
      destroy_subject s st = Ok st' → step_any st st'.

Inductive reachable_any : state → Prop :=
  | reachable_any_empty : reachable_any empty_state
  | reachable_any_step st st' :
      reachable_any st → step_any st st' → reachable_any st'.

(** A handle that its owner released: no ownership set holds it. *)
Definition released (st : state) (h : address) : Prop :=
  ∀ o, h ∉ owned st o.

(** ** How the teardown operations change the registries *)

(** [st'] is [st] with the handles of [D] destroyed (gone from the heap and
    from every ownership set) and the handles of [U] unregistered (gone
    from every dispatch sequence). *)
Record shrinks (D U : list address) (st st' : state) : Prop := Shrinks {
  sh_observers : ∀ h,
    observers st' !! h = if decide (h ∈ D) then None else observers st !! h;
  sh_dispatch : ∀ s, dispatch st' s = filter (λ h, h ∉ U) (dispatch st s);
  sh_owned : ∀ o, owned st' o = filter (λ h, h ∉ D) (owned st o);
  sh_blockers : blockers st' = blockers st;
  sh_brk : brk st' = brk st;
  sh_calls : calls st' = calls st
}.

(** Each registry entry names a handle of that very subject or owner, and
    no dispatch sequence repeats a handle. *)
Record uniq (st : state) : Prop := Uniq {
  uniq_seq : ∀ s h ob, h ∈ dispatch st s → observers st !! h = Some ob →
    m_subject ob = s;
  uniq_own : ∀ o h ob, h ∈ owned st o → observers st !! h = Some ob →
    m_owner ob = o;
  uniq_nodup : ∀ s, NoDup (dispatch st s)
}.

(** ** The relay as the specification words it *)

(** A callback that forwards the arguments it receives, as they are, into
    [s2.notify]; it takes as many arguments as [s2] publishes. *)
Definition forwarding_callback (n_args2 : nat) (s2 : address) : target :=
  Target n_args2 (Relay s2).

(** ** Scenarios *)

Definition state_of (r : result (address * state)) : state :=
  match r with
  | Ok (_, st) => st
  | _ => empty_state
  end.

Definition run (r : result state) : state :=
  match r with
  | Ok st => st
  | _ => empty_state
  end.

(** A subject [s< int >] at address 10 and an owner at address 20. *)
Definition base : state :=
  new_owner 20 (new_subject 10 1 empty_state).

(** [h0 = o.connect( s, lambda x => log.push( x ) )]: the handle 0. *)
Definition one : state :=
  state_of (observer_owner.connect 20 10 (Target 1 Passive) base).

(** The end-to-end scenario: [s.notify( 42 )], [o.disconnect( h0 )],
    [s.notify( 7 )]. *)
Definition end_to_end : result state :=
  st1 ← notify 1 10 [VInt 42] one;
  st2 ← observer_owner.disconnect 20 0 st1;
  notify 1 10 [VInt 7] st2.

(** The same callable connected twice, then one of the two handles
    disconnected, then a pass. *)
Definition twice_then_one : result state :=
  '(h0, st1) ← observer_owner.connect 20 10 (Target 1 Passive) base;
  '(h1, st2) ← observer_owner.connect 20 10 (Target 1 Passive) st1;
  st3 ← observer_owner.disconnect 20 h0 st2;
  notify 1 10 [VInt 5] st3.

(** A subject publishing [(int, string, bool)] at address 10. *)
Definition base3 : state :=
  new_owner 20 (new_subject 10 3 empty_state).

Definition args3 : list value :=
  [VInt 1; VStr "x"%string; VBool true].

(** Two subjects publishing [(int, string)], A at 10 and B at 11, an
    owner at 20, and a passive handler (the handle 0) on B. *)
Definition relay_empty : state :=
  new_owner 20 (new_subject 11 2 (new_subject 10 2 empty_state)).

Definition relay_base : state :=
  state_of (observer_owner.connect 20 11 (Target 2 Passive) relay_empty).

(** The handle 0 disconnects the handle 1 when it is invoked; both are
    connected to the subject at 10. *)
Definition removal_first : state :=
  state_of (observer_owner.connect 20 10 (Target 1 (Disconnect 20 1)) base).

Definition removal_in_pass : state :=
  state_of (observer_owner.connect 20 10 (Target 1 Passive) removal_first).

(** A blocker at 30 on the subject at 10 and, while it is alive, the
    disconnect of the handle 0; then the blocker is destroyed. *)
Definition blocked : state := run (block 30 10 one).
Definition blocked_released : state :=
  run (observer_owner.disconnect 20 0 blocked).
Definition restored : state := run (unblock 30 blocked_released).

(** ** The operations without blockers *)

(** The transitions of a program that never constructs a blocker and whose
    callables do not disconnect. *)
Inductive step_plain : state → state → Prop :=
  | plain_new_subject s n st :
      subjects st !! s = None → step_plain st (new_subject s n st)
  | plain_new_owner o st :
      owners st !! o = None → step_plain st (new_owner o st)
  | plain_connect o s f h st st' :
      (∀ owner h', t_body f ≠ Disconnect owner h') →
      observer_owner.connect o s f st = Ok (h, st') → step_plain st st'
  | plain_disconnect o h st st' :
      observer_owner.disconnect o h st = Ok st' → step_plain st st'
  | plain_notify fuel s args st st' :
      notify fuel s args st = Ok st' → step_plain st st'
  | plain_destroy_owner o st st' :
      observer_owner.destroy o st = Ok st' → step_plain st st'
  | plain_destroy_subject s st st' :
      destroy_subject s st = Ok st' → step_plain st st'.

Inductive reachable_plain : state → Prop :=
  | reachable_plain_empty : reachable_plain empty_state
  | reachable_plain_step st st' :
      reachable_plain st → step_plain st st' → reachable_plain st'.

(** ** More scenarios *)

(** [connect( A, B )] on the two subjects of [relay_base] (the relay is the
    handle 1), and then the destruction of B. *)
Definition relay_connected : state :=
  state_of (observer_owner.connect_subject 20 10 11 relay_base).

Definition relay_dangling : state :=
  run (destroy_subject 11 relay_connected).

(** [connect( s, s )]: a subject relayed into itself. *)
Definition self_relay : state :=
  state_of (observer_owner.connect_subject 20 10 10 base).

(** On the subject at 10 a callable that disconnects the handle 0, which
    is connected to the subject at 11. *)
Definition cross_removal : state :=
  state_of (observer_owner.connect 20 10 (Target 2 (Disconnect 20 0)) relay_base).

(** The subject at 10 destroyed while the blocker at 30 holds its
    sequence. *)
Definition blocked_destroyed : state := run (destroy_subject 10 blocked).
(** ** Facts on the search and the removal *)

Lemma find_if_None {A : Type} (p : A → bool) (l : list A) :
  find_if p l = None ↔ Forall (λ x, p x = false) l.
Proof.
  induction l as [|x l IH]; simpl.
  - split; [constructor | done].
  - destruct (p x) eqn:Hp.
    + split; [done | intros H; inversion H; congruence].
    + rewrite fmap_None, IH. split.
      * intros H. by constructor.
      * intros H. by inversion H.
Qed.

Lemma find_if_Some {A : Type} (p : A → bool) (l : list A) (r : nat) :
  find_if p l = Some r →
  ∃ l1 x l2, l = l1 ++ x :: l2 ∧ length l1 = r ∧ p x = true
             ∧ Forall (λ y, p y = false) l1.
Proof.
  revert r. induction l as [|x l IH]; intros r; simpl; [done|].
  destruct (p x) eqn:Hp.
  - intros [= <-]. exists [], x, l. by repeat split.
  - intros H. apply fmap_Some in H as (r' & Hr' & ->).
    destruct (IH _ Hr') as (l1 & y & l2 & -> & Hlen & Hy & Hall).
    exists (x :: l1), y, l2. repeat split; simpl; auto.
Qed.

Lemma remove_observer_absent (o : address) (l : list address) :
  o ∉ l → subject_ops.remove_observer o l = l.
Proof.
  intros Hno. unfold subject_ops.remove_observer.
  assert (find_if (λ o1, bool_decide (o1 = o)) (reverse l) = None) as ->; [|done].
  apply find_if_None, Forall_forall. intros x Hx.
  rewrite bool_decide_eq_false. intros ->. apply Hno. by rewrite elem_of_reverse in Hx.
Qed.

Lemma remove_observer_last (o : address) (l1 l2 : list address) :
  o ∉ l2 → subject_ops.remove_observer o (l1 ++ o :: l2) = l1 ++ l2.
Proof.
  intros Hno. unfold subject_ops.remove_observer.
  destruct (find_if _ _) as [r|] eqn:Hf.
  - apply find_if_Some in Hf as (k1 & x & k2 & Hrev & Hlen & Hx & Hall).
    apply bool_decide_eq_true in Hx as ->.
    assert (k1 = reverse l2) as ->.
    { rewrite reverse_app, reverse_cons in Hrev.
      rewrite <- (assoc_L (++)) in Hrev. simpl in Hrev.
      assert (o ∉ k1) as Hk1.
      { intros Hin. rewrite Forall_forall in Hall.
        specialize (Hall _ Hin). by rewrite bool_decide_eq_false in Hall. }
      assert (o ∉ reverse l2) as Hr2 by (by rewrite elem_of_reverse).
      revert Hrev Hk1 Hr2. generalize (reverse l2) as m. clear.
      intros m. revert k1. induction m as [|a m IH]; intros [|b k1]; simpl.
      - done.
      - intros [= <- _] Hk1 _. exfalso. apply Hk1. by left.
      - intros [= -> _] _ Hm. exfalso. apply Hm. by left.
      - intros [= -> Heq] Hk1 Hm. f_equal. apply IH.
        + done.
        + intros ?. apply Hk1. by right.
        + intros ?. apply Hm. by right. }
    subst r. rewrite length_reverse, length_app. simpl.
    replace (length l1 + S (length l2) - 1 - length l2) with (length l1) by lia.
    apply delete_middle.
  - apply find_if_None in Hf. rewrite Forall_forall in Hf.
    specialize (Hf o). rewrite bool_decide_eq_false in Hf.
    exfalso. apply Hf; [|done]. rewrite elem_of_reverse, elem_of_app, elem_of_cons. auto.
Qed.


Lemma filter_all {A : Type} (P : A → Prop) `{!∀ x, Decision (P x)} (l : list A) :
  Forall P l → filter P l = l.
Proof.
  induction 1 as [|x l Hx _ IH]; [done|].
  by rewrite filter_cons_True, IH.
Qed.

Lemma remove_observer_filter (o : address) (l : list address) :
  NoDup l → subject_ops.remove_observer o l = filter (λ x, x ≠ o) l.
Proof.
  intros Hnd. destruct (decide (o ∈ l)) as [Hin|Hno].
  - apply list_elem_of_split in Hin as (l1 & l2 & ->).
    apply NoDup_app in Hnd as (Hnd1 & Hdisj & Hnd2).
    apply NoDup_cons in Hnd2 as [Hno2 _].
    rewrite remove_observer_last by done.
    rewrite filter_app, filter_cons_False by (intros H; by apply H).
    f_equal; symmetry; apply filter_all, Forall_forall.
    + intros x Hx ->. apply (Hdisj o Hx). by left.
    + intros x Hx ->. by apply Hno2.
  - rewrite remove_observer_absent by done.
    symmetry. apply filter_all, Forall_forall. by intros x Hx ->.
Qed.

Lemma get_first_upto_take {A : Type} (m : nat) (t : list A) :
  m ≤ length t → pg_detail.get_first_upto m t = Some (take m t).
Proof.
  induction m as [|m IH]; intros Hle; simpl; [done|].
  rewrite IH by lia.
  destruct (lookup_lt_is_Some_2 t m) as [x Hx]; [lia|].
  rewrite Hx. by erewrite take_S_r.
Qed.

Lemma get_first_n_take {A : Type} (N : nat) (args : list A) :
  N ≤ length args → pg_detail.get_first_n N args = Some (take N args).
Proof.
  intros Hle. unfold pg_detail.get_first_n, pg_detail.get_first.
  rewrite bool_decide_eq_true_2 by done.
  destruct (Z.ltb_spec (Z.of_nat N - 1) (-1)) as [Hlt|_]; [lia|].
  replace (Z.to_nat (Z.of_nat N - 1 + 1)) with N by lia.
  by apply get_first_upto_take.
Qed.

Lemma get_first_n_reject {A : Type} (N : nat) (args : list A) :
  length args < N → pg_detail.get_first_n N args = None.
Proof.
  intros Hlt. unfold pg_detail.get_first_n.
  rewrite bool_decide_eq_false_2; [done | lia].
Qed.

(** ** Removal from the dispatch sequence *)

(** C5: when [h] is in the dispatch sequence, [remove_observer] takes out
    exactly one entry, the occurrence of [h] closest to the most recently
    added end, and keeps every other entry in its place and order; a
    different handle that was in the sequence is still there. *)
Theorem remove_observer_removes_last (h : address) (l : list address) :
  h ∈ l →
  ∃ l1 l2,
    l = l1 ++ h :: l2 ∧ (h ∉ l2)
    ∧ subject_ops.remove_observer h l = l1 ++ l2
    ∧ length (subject_ops.remove_observer h l) + 1 = length l
    ∧ ∀ h', h' ≠ h → h' ∈ l → h' ∈ subject_ops.remove_observer h l.
Proof.
  intros Hin.
  assert (∃ l1 l2, l = l1 ++ h :: l2 ∧ h ∉ l2) as (l1 & l2 & -> & Hno).
  { induction l as [|x l IH]; [by apply elem_of_nil in Hin|].
    destruct (decide (h ∈ l)) as [Hl|Hl].
    - destruct (IH Hl) as (l1 & l2 & -> & Hno). by exists (x :: l1), l2.
    - apply elem_of_cons in Hin as [->|]; [|done]. by exists [], l. }
  exists l1, l2. rewrite remove_observer_last by done.
  repeat split; auto.
  - rewrite !length_app. simpl. lia.
  - intros h' Hne. rewrite !elem_of_app, elem_of_cons. intuition congruence.
Qed.

Lemma remove_observer_removes_last_witness :
  2 ∈ [1; 2; 3; 2; 4] ∧
  ∃ l1 l2,
    [1; 2; 3; 2; 4] = l1 ++ 2 :: l2 ∧ (2 ∉ l2)
    ∧ subject_ops.remove_observer 2 [1; 2; 3; 2; 4] = l1 ++ l2
    ∧ length (subject_ops.remove_observer 2 [1; 2; 3; 2; 4]) + 1
      = length [1; 2; 3; 2; 4]
    ∧ ∀ h', h' ≠ 2 → h' ∈ [1; 2; 3; 2; 4] →
        h' ∈ subject_ops.remove_observer 2 [1; 2; 3; 2; 4].
Proof.
  assert (2 ∈ [1; 2; 3; 2; 4]) as Hin by (do 1 right; left).
  split; [exact Hin | exact (remove_observer_removes_last 2 [1; 2; 3; 2; 4] Hin)].
Defined.

(** C10: asking a subject to remove a handle that is not in its dispatch
    sequence changes nothing: the search ends at [rend()] and no [erase]
    runs. *)
Theorem remove_observer_absent_noop (h : address) (l : list address) :
  h ∉ l →
  find_if (λ o1, bool_decide (o1 = h)) (reverse l) = None
  ∧ subject_ops.remove_observer h l = l.
Proof.
  intros Hno. split; [|by apply remove_observer_absent].
  apply find_if_None, Forall_forall. intros x Hx.
  rewrite bool_decide_eq_false. intros ->. apply Hno.
  by rewrite elem_of_reverse in Hx.
Qed.

Lemma remove_observer_absent_noop_witness :
  (5 ∉ [1; 2; 3]) ∧
  find_if (λ o1, bool_decide (o1 = 5)) (reverse [1; 2; 3]) = None
  ∧ subject_ops.remove_observer 5 [1; 2; 3] = [1; 2; 3].
Proof.
  assert (5 ∉ [1; 2; 3]) as Hno by (rewrite !elem_of_cons, elem_of_nil; lia).
  split; [exact Hno | exact (remove_observer_absent_noop 5 [1; 2; 3] Hno)].
Defined.

(** ** Arity adaptation *)

(** What the virtual [notify] of a connection does once the handle is
    known to be alive and the arity fits. *)
Lemma observer_notify_live
    (nf : address → list value → state → result state)
    (h : address) (ob : observer) (args : list value) (st : state) :
  observers st !! h = Some ob →
  function_arity (m_function ob) ≤ length args →
  observer_notify nf h args st =
    let args' := take (function_arity (m_function ob)) args in
    let st1 := with_calls (calls st ++ [(h, args')]) st in
    match t_body (m_function ob) with
    | Passive => Ok st1
    | Relay s2 => nf s2 args' st1
    | Disconnect owner h' => observer_owner.disconnect owner h' st1
    end.
Proof.
  intros Hob Hle. unfold observer_notify. rewrite Hob. simpl.
  by rewrite get_first_n_take.
Qed.

(** C6: a callable whose arity [N] is at most the number of arguments the
    subject publishes is connected, and a pass with [args] hands it
    exactly the leading [N] arguments; a callable that needs more
    arguments than the subject publishes is rejected when it is bound. *)
Theorem arity_truncation (st : state) (owner s : address) (X : list address)
    (sub : subject) (f : target) (args : list value) :
  owners st !! owner = Some X →
  subjects st !! s = Some sub →
  length args = sizeof_args sub →
  (function_arity f ≤ sizeof_args sub →
     pg_detail.get_first_n (function_arity f) args
       = Some (take (function_arity f) args)
     ∧ ∃ h st',
         observer_owner.connect owner s f st = Ok (h, st')
         ∧ ∀ nf, observer_notify nf h args st' =
             let args' := take (function_arity f) args in
             let st1 := with_calls (calls st' ++ [(h, args')]) st' in
             match t_body f with
             | Passive => Ok st1
             | Relay s2 => nf s2 args' st1
             | Disconnect o h' => observer_owner.disconnect o h' st1
             end)
  ∧ (sizeof_args sub < function_arity f →
     pg_detail.get_first_n (function_arity f) args = None
     ∧ observer_owner.connect owner s f st = Rejected).
Proof.
  intros Ho Hs Hlen. split.
  - intros Hle. split; [apply get_first_n_take; lia|].
    unfold observer_owner.connect. rewrite Ho, Hs. simpl.
    rewrite bool_decide_eq_true_2 by done.
    eexists _, _. split; [done|]. intros nf.
    rewrite (observer_notify_live nf _ (Observer owner s f)); simpl.
    + done.
    + by rewrite lookup_insert_eq.
    + lia.
  - intros Hlt. split; [apply get_first_n_reject; lia|].
    unfold observer_owner.connect. rewrite Ho, Hs. simpl.
    rewrite bool_decide_eq_false_2; [done | lia].
Qed.

(** ** Blockers *)

Lemma state_eq (st st' : state) :
  observers st = observers st' → subjects st = subjects st' →
  owners st = owners st' → blockers st = blockers st' →
  brk st = brk st' → calls st = calls st' → freed st = freed st' →
  st = st'.
Proof. destruct st, st'; simpl; intros; by subst. Qed.

Lemma dispatch_lookup (st : state) (s : address) (sub : subject) :
  subjects st !! s = Some sub → dispatch st s = m_observers sub.
Proof. intros H. unfold dispatch. by rewrite H. Qed.

Lemma unblock_restores (st : state) (b s : address) (l : list address) :
  blockers st !! b = Some (Blocker s l) →
  is_Some (subjects st !! s) →
  ∃ st', unblock b st = Ok st' ∧ dispatch st' s = l
         ∧ observers st' = observers st ∧ owners st' = owners st.
Proof.
  intros Hb [sub Hs]. unfold unblock. rewrite Hb. simpl. rewrite Hs. simpl.
  eexists. split; [done|]. unfold dispatch. simpl.
  by rewrite lookup_insert_eq.
Qed.

(** C4: constructing a blocker on a subject empties the dispatch sequence,
    so a pass invokes nothing and the owners' registrations stay as they
    are; destroying the blocker puts the saved sequence back, whatever the
    subject holds by then, and with no operation in between the state is
    the one before the blocker; a handle connected to the subject during
    the block is dropped from the sequence by the restore, though its
    owner still holds it. *)
Theorem blocker_round_trip (st : state) (b s : address) (sub : subject) :
  subjects st !! s = Some sub →
  blockers st !! b = None →
  ∃ st1,
    block b s st = Ok st1
    ∧ dispatch st1 s = []
    ∧ observers st1 = observers st ∧ owners st1 = owners st
    ∧ (∀ fuel args, length args = sizeof_args sub →
         notify (S fuel) s args st1 = Ok st1)
    ∧ unblock b st1 = Ok st
    ∧ (∀ st', blockers st' !! b = Some (Blocker s (m_observers sub)) →
         is_Some (subjects st' !! s) →
         ∃ st2, unblock b st' = Ok st2 ∧ dispatch st2 s = m_observers sub)
    ∧ (∀ owner f h st',
         (∀ x, x ∈ m_observers sub → x < brk st) →
         observer_owner.connect owner s f st1 = Ok (h, st') →
         dispatch st' s = [h]
         ∧ ∃ st2, unblock b st' = Ok st2
                  ∧ dispatch st2 s = m_observers sub
                  ∧ (h ∉ dispatch st2 s)
                  ∧ h ∈ owned st2 owner).
Proof.
  intros Hs Hb. unfold block. rewrite Hs. simpl.
  eexists. split; [done|].
  split; [unfold dispatch; simpl; by rewrite lookup_insert_eq|].
  split; [done|]. split; [done|].
  split.
  { intros fuel args Hlen. simpl. rewrite lookup_insert_eq. simpl.
    by rewrite bool_decide_eq_true_2. }
  split.
  { unfold unblock. simpl. rewrite lookup_insert_eq. simpl.
    rewrite lookup_insert_eq. simpl. f_equal.
    apply state_eq; simpl; try done.
    - rewrite insert_insert_eq. apply insert_id. by destruct sub.
    - by apply delete_insert_id. }
  split.
  { intros st' Hb' Hs'.
    destruct (unblock_restores st' b s _ Hb' Hs') as (st2 & ? & ? & _); eauto. }
  intros owner f h st' Hfresh Hc.
  unfold observer_owner.connect in Hc. simpl in Hc.
  destruct (owners st !! owner) as [X|] eqn:Ho; [|done]. simpl in Hc.
  rewrite lookup_insert_eq in Hc. simpl in Hc.
  case_bool_decide; [|done]. injection Hc as <- <-.
  split; [unfold dispatch; simpl; by rewrite lookup_insert_eq|].
  eexists. split.
  { unfold unblock. simpl. rewrite lookup_insert_eq. simpl.
    rewrite lookup_insert_eq. simpl. done. }
  unfold dispatch, owned. simpl. rewrite !lookup_insert_eq. simpl.
  split; [done|]. split.
  - intros Hin. apply Hfresh in Hin. lia.
  - clear. induction X as [|x X IH]; simpl; [by left|].
    repeat case_bool_decide; subst; rewrite ?elem_of_cons; auto.
Qed.

(** ** Views of the registries *)

Lemma elem_of_dispatch (st : state) (s h : address) :
  h ∈ dispatch st s ↔ ∃ sub, subjects st !! s = Some sub ∧ h ∈ m_observers sub.
Proof.
  unfold dispatch. destruct (subjects st !! s) as [sub|].
  - split; [eauto | by intros (? & [= <-] & ?)].
  - split; [by intros ?%elem_of_nil | by intros (? & ? & ?)].
Qed.

Lemma elem_of_owned (st : state) (o h : address) :
  h ∈ owned st o ↔ ∃ X, owners st !! o = Some X ∧ h ∈ X.
Proof.
  unfold owned. destruct (owners st !! o) as [X|]; simpl.
  - split; [eauto | by intros (? & [= <-] & ?)].
  - split; [by intros ?%elem_of_nil | by intros (? & ? & ?)].
Qed.

Lemma owned_lookup (st : state) (o : address) (X : list address) :
  owners st !! o = Some X → owned st o = X.
Proof. intros H. unfold owned. by rewrite H. Qed.

Lemma dispatch_insert (st st' : state) (s s' : address) (sub : subject) :
  subjects st' = <[s := sub]> (subjects st) →
  dispatch st' s' = if decide (s' = s) then m_observers sub else dispatch st s'.
Proof.
  intros Hf. unfold dispatch. rewrite Hf.
  destruct (decide (s' = s)) as [->|Hne].
  - by rewrite lookup_insert_eq.
  - by rewrite lookup_insert_ne.
Qed.

Lemma owned_insert (st st' : state) (o o' : address) (X : list address) :
  owners st' = <[o := X]> (owners st) →
  owned st' o' = if decide (o' = o) then X else owned st o'.
Proof.
  intros Hf. unfold owned. rewrite Hf.
  destruct (decide (o' = o)) as [->|Hne].
  - by rewrite lookup_insert_eq.
  - by rewrite lookup_insert_ne.
Qed.

Lemma dispatch_same (st st' : state) (s : address) :
  subjects st' = subjects st → dispatch st' s = dispatch st s.
Proof. intros H. unfold dispatch. by rewrite H. Qed.

Lemma owned_same (st st' : state) (o : address) :
  owners st' = owners st → owned st' o = owned st o.
Proof. intros H. unfold owned. by rewrite H. Qed.

Lemma elem_of_set_insert (h x : address) (X : list address) :
  x ∈ set_insert h X ↔ x = h ∨ x ∈ X.
Proof.
  induction X as [|y X IH]; simpl.
  - rewrite list_elem_of_singleton, elem_of_nil. tauto.
  - repeat case_bool_decide; subst; rewrite ?elem_of_cons, ?IH; tauto.
Qed.

Lemma NoDup_set_insert (h : address) (X : list address) :
  h ∉ X → NoDup X → NoDup (set_insert h X).
Proof.
  induction X as [|y X IH]; simpl; intros Hno Hnd.
  - apply NoDup_singleton.
  - apply not_elem_of_cons in Hno as [Hne Hno].
    apply NoDup_cons in Hnd as [Hy Hnd].
    repeat case_bool_decide; subst; try done.
    + apply NoDup_cons. split; [|by apply NoDup_cons].
      rewrite elem_of_cons. tauto.
    + apply NoDup_cons. split; [|by apply IH].
      rewrite elem_of_set_insert. intros [->|]; done.
Qed.

Lemma filter_notin_app (D1 D2 l : list address) :
  filter (λ h, h ∉ D2) (filter (λ h, h ∉ D1) l)
    = filter (λ h, h ∉ D1 ++ D2) l.
Proof.
  rewrite list_filter_filter. apply list_filter_iff.
  intros x. rewrite elem_of_app. tauto.
Qed.

Lemma filter_notin_nil (l : list address) :
  filter (λ h, h ∉ []) l = l.
Proof. apply filter_all, Forall_forall. intros x _. apply not_elem_of_nil. Qed.

Lemma filter_notin_singleton (h : address) (l : list address) :
  filter (λ x, x ∉ [h]) l = filter (λ x, x ≠ h) l.
Proof. apply list_filter_iff. intros x. by rewrite list_elem_of_singleton. Qed.

Lemma filter_notin_absent (D l : list address) :
  (∀ x, x ∈ l → x ∉ D) → filter (λ h, h ∉ D) l = l.
Proof. intros H. by apply filter_all, Forall_forall. Qed.

Lemma filter_notin_self (l : list address) :
  filter (λ h, h ∉ l) l = [].
Proof.
  destruct (filter (λ h, h ∉ l) l) as [|x k] eqn:Hf; [done|].
  assert (x ∈ filter (λ h, h ∉ l) l) as Hx by (rewrite Hf; left).
  apply list_elem_of_filter in Hx as [Hno Hin]. done.
Qed.

(** ** Composition and preservation for [shrinks] *)

Lemma shrinks_trans (D1 U1 D2 U2 : list address) (st st1 st2 : state) :
  shrinks D1 U1 st st1 → shrinks D2 U2 st1 st2 →
  shrinks (D1 ++ D2) (U1 ++ U2) st st2.
Proof.
  intros [Ho1 Hd1 Hw1 Hb1 Hk1 Hc1] [Ho2 Hd2 Hw2 Hb2 Hk2 Hc2]. split.
  - intros h. rewrite Ho2, Ho1.
    repeat case_decide; try done; rewrite elem_of_app in *; tauto.
  - intros s. by rewrite Hd2, Hd1, filter_notin_app.
  - intros o. by rewrite Hw2, Hw1, filter_notin_app.
  - congruence.
  - congruence.
  - congruence.
Qed.

Lemma shrinks_uniq (D U : list address) (st st' : state) :
  shrinks D U st st' → uniq st → uniq st'.
Proof.
  intros [Ho Hd Hw _ _ _] [Hs Hown Hnd]. split.
  - intros s h ob. rewrite Hd, Ho, list_elem_of_filter.
    intros [_ Hin]. case_decide; [done|]. by apply Hs.
  - intros o h ob. rewrite Hw, Ho, list_elem_of_filter.
    intros [_ Hin]. case_decide; [done|]. by apply Hown.
  - intros s. rewrite Hd. by apply NoDup_filter.
Qed.

Lemma inv_uniq (st : state) : inv st → uniq st.
Proof.
  intros Hinv. split.
  - intros s h ob Hin Hob.
    destruct (inv_seq _ Hinv _ _ Hin) as (ob' & Hob' & <-). congruence.
  - intros o h ob Hin Hob.
    destruct (inv_own _ Hinv _ _ Hin) as (ob' & Hob' & <-). congruence.
  - apply (inv_seq_nodup _ Hinv).
Qed.

Lemma hidden_blockers (st st' : state) (h : address) :
  blockers st' = blockers st → hidden st' h ↔ hidden st h.
Proof. intros Hb. unfold hidden. by rewrite Hb. Qed.

Lemma inv_shrink (D U : list address) (st st' : state) :
  inv st → shrinks D U st st' →
  (∀ h, h ∈ D → h ∈ U) →
  (∀ h, h ∈ D → ¬ hidden st h) →
  inv st'.
Proof.
  intros Hinv [Ho Hd Hw Hb Hk _] HDU Hhid. split.
  - intros h ob. rewrite Ho, Hw. case_decide; [done|]. intros Hob.
    apply list_elem_of_filter. split; [done|]. by apply (inv_live _ Hinv).
  - intros o h. rewrite Hw, list_elem_of_filter. intros [HnD Hin].
    destruct (inv_own _ Hinv _ _ Hin) as (ob & Hob & Hmo).
    exists ob. rewrite Ho. by rewrite decide_False.
  - intros o. rewrite Hw. apply NoDup_filter, (inv_own_nodup _ Hinv).
  - intros s h. rewrite Hd, list_elem_of_filter. intros [HnU Hin].
    destruct (inv_seq _ Hinv _ _ Hin) as (ob & Hob & Hms).
    exists ob. rewrite Ho. rewrite decide_False; [done|]. intros ?; auto.
  - intros s. rewrite Hd. apply NoDup_filter, (inv_seq_nodup _ Hinv).
  - intros b bl h. rewrite Hb. intros Hbl Hin.
    destruct (inv_saved _ Hinv _ _ _ Hbl Hin) as (ob & Hob & Hms).
    exists ob. rewrite Ho. rewrite decide_False; [done|].
    intros HD. apply (Hhid _ HD). by exists b, bl.
  - intros b bl. rewrite Hb. apply (inv_saved_nodup _ Hinv).
  - intros b b' bl bl' h. rewrite Hb. apply (inv_saved_disj _ Hinv).
  - intros s h. rewrite Hd, list_elem_of_filter, (hidden_blockers st st') by done.
    intros [_ Hin]. by apply (inv_seq_saved _ Hinv s).
  - intros h. rewrite Hk, Ho. intros Hge. case_decide; [done|].
    by apply (inv_fresh _ Hinv).
Qed.

Lemma wf_not_hidden (st : state) (h : address) : wf st → ¬ hidden st h.
Proof.
  intros [Hinv Hatt] (b & bl & Hbl & Hin).
  destruct (inv_saved _ Hinv _ _ _ Hbl Hin) as (ob & Hob & _).
  apply (inv_seq_saved _ Hinv _ _ (Hatt _ _ Hob)). by exists b, bl.
Qed.

Lemma wf_shrink (D : list address) (st st' : state) :
  wf st → shrinks D D st st' → wf st'.
Proof.
  intros Hwf Hsh. split.
  - eapply inv_shrink; [apply Hwf | done | done |].
    intros h _. by apply wf_not_hidden.
  - destruct Hsh as [Ho Hd _ _ _ _]. intros h ob. rewrite Ho, Hd.
    case_decide; [done|]. intros Hob. apply list_elem_of_filter.
    split; [done|]. by apply (wf_attached _ Hwf).
Qed.

(** ** The two halves of a removal *)

Lemma detach_shrinks (st : state) (h : address) (ob : observer) :
  uniq st →
  observers st !! h = Some ob →
  is_Some (subjects st !! m_subject ob) →
  ∃ st1,
    remove_from_subject h st = Ok st1
    ∧ shrinks [] [h] st st1
    ∧ observers st1 = observers st ∧ owners st1 = owners st
    ∧ freed st1 = freed st
    ∧ ∀ s, is_Some (subjects st1 !! s) ↔ is_Some (subjects st !! s).
Proof.
  intros Hu Hob [sub Hsub]. unfold remove_from_subject.
  rewrite Hob. simpl. rewrite Hsub. simpl.
  eexists. split; [done|]. repeat split; simpl; try done.
  - intros s. erewrite dispatch_insert by done. case_decide as Hs.
    + subst s. simpl. rewrite remove_observer_filter.
      * by rewrite filter_notin_singleton, (dispatch_lookup _ _ _ Hsub).
      * rewrite <- (dispatch_lookup _ _ _ Hsub). apply (uniq_nodup _ Hu).
    + symmetry. apply filter_notin_absent. intros x Hx.
      rewrite list_elem_of_singleton. intros ->.
      apply Hs. symmetry. by apply (uniq_seq _ Hu _ h).
  - intros o. unfold owned. simpl. by rewrite filter_notin_nil.
  - intros Hs. destruct (decide (s = m_subject ob)) as [->|Hne].
    + by rewrite Hsub.
    + by rewrite lookup_insert_ne in Hs.
  - intros Hs. destruct (decide (s = m_subject ob)) as [->|Hne].
    + by rewrite lookup_insert_eq.
    + by rewrite lookup_insert_ne.
Qed.

Lemma release_shrinks (st : state) (o h : address) (ob : observer) :
  uniq st →
  observers st !! h = Some ob →
  h ∈ owned st o →
  ∃ st1,
    observer_owner.remove_observer o h st = Ok st1
    ∧ shrinks [h] [] st st1
    ∧ subjects st1 = subjects st
    ∧ freed st1 = freed st ++ [h]
    ∧ ∀ o', is_Some (owners st1 !! o') ↔ is_Some (owners st !! o').
Proof.
  intros Hu Hob Hin. unfold observer_owner.remove_observer.
  apply elem_of_owned in Hin as Hin'. destruct Hin' as (X & HX & HinX).
  rewrite HX. simpl. rewrite bool_decide_eq_true_2 by done.
  eexists. split; [done|]. repeat split; simpl; try done.
  - intros h'. rewrite lookup_delete.
    repeat case_decide; try done; subst.
    + exfalso. rewrite list_elem_of_singleton in *. done.
    + exfalso. rewrite list_elem_of_singleton in *. done.
  - intros s. unfold dispatch. simpl. by rewrite filter_notin_nil.
  - intros o'. erewrite owned_insert by done. case_decide as Ho.
    + subst o'. unfold set_erase. by rewrite filter_notin_singleton, (owned_lookup _ _ _ HX).
    + symmetry. apply filter_notin_absent. intros x Hx.
      rewrite list_elem_of_singleton. intros ->. apply Ho.
      rewrite <- (uniq_own _ Hu _ _ _ Hx Hob). by apply (uniq_own _ Hu _ h).
  - intros Hs. destruct (decide (o' = o)) as [->|Hne].
    + by rewrite HX.
    + by rewrite lookup_insert_ne in Hs.
  - intros Hs. destruct (decide (o' = o)) as [->|Hne].
    + by rewrite lookup_insert_eq.
    + by rewrite lookup_insert_ne.
Qed.

Lemma remove_from_owner_live (st : state) (h : address) (ob : observer) :
  observers st !! h = Some ob →
  remove_from_owner h st = observer_owner.remove_observer (m_owner ob) h st.
Proof. intros Hob. unfold remove_from_owner. by rewrite Hob. Qed.

(** ** The loops of the two destructors *)

Lemma for_each_detach (L : list address) (st : state) :
  uniq st →
  (∀ h, h ∈ L → ∃ ob, observers st !! h = Some ob
                      ∧ is_Some (subjects st !! m_subject ob)) →
  ∃ st1,
    for_each remove_from_subject L st = Ok st1
    ∧ shrinks [] L st st1
    ∧ observers st1 = observers st ∧ owners st1 = owners st
    ∧ freed st1 = freed st
    ∧ ∀ s, is_Some (subjects st1 !! s) ↔ is_Some (subjects st !! s).
Proof.
  revert st. induction L as [|h L IH]; intros st Hu Hlive; simpl.
  - exists st. split; [done|]. repeat split; try done.
    + intros s. by rewrite filter_notin_nil.
    + intros o. by rewrite filter_notin_nil.
  - destruct (Hlive h) as (ob & Hob & Hsub); [by left|].
    destruct (detach_shrinks st h ob Hu Hob Hsub)
      as (st1 & -> & Hsh & Hobs & Hown & Hfr & Hdom). simpl.
    destruct (IH st1) as (st2 & -> & Hsh2 & Hobs2 & Hown2 & Hfr2 & Hdom2).
    { by eapply shrinks_uniq. }
    { intros h' Hh'. destruct (Hlive h') as (ob' & Hob' & Hsub'); [by right|].
      exists ob'. rewrite Hobs, Hdom. done. }
    exists st2. split; [done|]. split.
    + apply (shrinks_trans [] [h] [] L _ _ _ Hsh Hsh2).
    + repeat split; try congruence.
      * rewrite Hdom2, Hdom. done.
      * rewrite Hdom2, Hdom. done.
Qed.

Lemma for_each_release (L : list address) (st : state) :
  uniq st →
  NoDup L →
  (∀ h, h ∈ L → ∃ ob, observers st !! h = Some ob
                      ∧ h ∈ owned st (m_owner ob)) →
  ∃ st1,
    for_each remove_from_owner L st = Ok st1
    ∧ shrinks L [] st st1
    ∧ subjects st1 = subjects st
    ∧ freed st1 = freed st ++ L
    ∧ ∀ o, is_Some (owners st1 !! o) ↔ is_Some (owners st !! o).
Proof.
  revert st. induction L as [|h L IH]; intros st Hu Hnd Hlive; simpl.
  - exists st. split; [done|]. rewrite app_nil_r. repeat split; try done.
    + intros s. by rewrite filter_notin_nil.
    + intros o. by rewrite filter_notin_nil.
  - apply NoDup_cons in Hnd as [HhL Hnd].
    destruct (Hlive h) as (ob & Hob & Hin); [by left|].
    rewrite (remove_from_owner_live _ _ _ Hob).
    destruct (release_shrinks st _ h ob Hu Hob Hin)
      as (st1 & -> & Hsh & Hsub & Hfr & Hdom). simpl.
    destruct (IH st1) as (st2 & -> & Hsh2 & Hsub2 & Hfr2 & Hdom2).
    { by eapply shrinks_uniq. }
    { done. }
    { intros h' Hh'. destruct (Hlive h') as (ob' & Hob' & Hin'); [by right|].
      exists ob'. rewrite (sh_observers _ _ _ _ Hsh), (sh_owned _ _ _ _ Hsh).
      assert (h' ≠ h) as Hne by (by intros ->).
      rewrite decide_False by (by rewrite list_elem_of_singleton).
      split; [done|]. apply list_elem_of_filter.
      by rewrite list_elem_of_singleton. }
    exists st2. split; [done|]. split.
    + apply (shrinks_trans [h] [] L [] _ _ _ Hsh Hsh2).
    + repeat split; try congruence.
      * rewrite Hfr2, Hfr. by rewrite <- (assoc_L (++)).
      * rewrite Hdom2, Hdom. done.
      * rewrite Hdom2, Hdom. done.
Qed.

(** ** disconnect, ~observer_owner and ~subject on consistent registries *)

Lemma lookup_foldr_delete (X : list address) (m : gmap address observer)
    (h : address) :
  foldr delete m X !! h = if decide (h ∈ X) then None else m !! h.
Proof.
  induction X as [|x X IH]; simpl.
  - done.
  - rewrite lookup_delete, IH.
    destruct (decide (x = h)) as [->|Hne].
    + rewrite decide_True; [done | by left].
    + destruct (decide (h ∈ X)) as [Hin|Hno].
      * rewrite decide_True; [done | by right].
      * rewrite decide_False; [done|].
        rewrite elem_of_cons. intros [->|]; done.
Qed.

Lemma disconnect_shrinks (st : state) (o h : address) (ob : observer) :
  uniq st →
  observers st !! h = Some ob →
  is_Some (subjects st !! m_subject ob) →
  h ∈ owned st o →
  ∃ st',
    observer_owner.disconnect o h st = Ok st'
    ∧ shrinks [h] [h] st st'
    ∧ freed st' = freed st ++ [h]
    ∧ (∀ s, is_Some (subjects st' !! s) ↔ is_Some (subjects st !! s))
    ∧ (∀ o', is_Some (owners st' !! o') ↔ is_Some (owners st !! o')).
Proof.
  intros Hu Hob Hsub Hin. unfold observer_owner.disconnect.
  destruct (detach_shrinks st h ob Hu Hob Hsub)
    as (st1 & -> & Hsh & Hobs & Hown & Hfr & Hdom). simpl.
  destruct (release_shrinks st1 o h ob) as (st2 & -> & Hsh2 & Hsub2 & Hfr2 & Hdom2).
  { by eapply shrinks_uniq. }
  { by rewrite Hobs. }
  { by rewrite (owned_same st st1). }
  exists st2. split; [done|]. split.
  { apply (shrinks_trans [] [h] [h] [] _ _ _ Hsh Hsh2). }
  split; [congruence|]. split.
  - intros s. by rewrite Hsub2, Hdom.
  - intros o'. by rewrite Hdom2, Hown.
Qed.

Lemma destroy_owner_shrinks (st : state) (o : address) (X : list address) :
  uniq st →
  owners st !! o = Some X →
  (∀ h, h ∈ X → ∃ ob, observers st !! h = Some ob
                      ∧ is_Some (subjects st !! m_subject ob)) →
  ∃ st',
    observer_owner.destroy o st = Ok st'
    ∧ shrinks X X st st'
    ∧ freed st' = freed st ++ X
    ∧ owners st' = delete o (owners st)
    ∧ (∀ s, is_Some (subjects st' !! s) ↔ is_Some (subjects st !! s)).
Proof.
  intros Hu HX Hlive. unfold observer_owner.destroy. rewrite HX. simpl.
  destruct (for_each_detach X st Hu Hlive)
    as (st1 & -> & Hsh & Hobs & Hown & Hfr & Hdom). simpl.
  eexists. split; [done|].
  assert (shrinks X [] st1
            (with_freed (freed st1 ++ X)
              (with_observers (λ m, foldr delete m X)
                (with_owners (delete o) st1)))) as Hsh2.
  { split; simpl; try done.
    - intros h. apply lookup_foldr_delete.
    - intros s. unfold dispatch. simpl. by rewrite filter_notin_nil.
    - intros o'. unfold owned at 1. simpl.
      destruct (decide (o' = o)) as [->|Hne].
      + rewrite lookup_delete_eq. simpl.
        rewrite (owned_same st st1), (owned_lookup _ _ _ HX) by done.
        by rewrite filter_notin_self.
      + rewrite lookup_delete_ne by done.
        symmetry. apply filter_notin_absent. intros x Hx HxX.
        destruct (Hlive x HxX) as (ob & Hob & _).
        rewrite Hown in Hx. change (x ∈ owned st o') in Hx.
        apply Hne. rewrite <- (uniq_own _ Hu _ _ _ Hx Hob).
        apply (uniq_own _ Hu _ x); [|done].
        by rewrite (owned_lookup _ _ _ HX). }
  pose proof (shrinks_trans _ _ _ _ _ _ _ Hsh Hsh2) as Hall.
  rewrite app_nil_r in Hall. simpl in Hall.
  split; [done|]. simpl. split; [congruence|]. split; [congruence|].
  done.
Qed.

Lemma destroy_subject_shrinks (st : state) (s : address) (sub : subject) :
  uniq st →
  subjects st !! s = Some sub →
  (∀ h, h ∈ m_observers sub → ∃ ob, observers st !! h = Some ob
                                   ∧ h ∈ owned st (m_owner ob)) →
  ∃ st',
    destroy_subject s st = Ok st'
    ∧ shrinks (m_observers sub) (m_observers sub) st st'
    ∧ freed st' = freed st ++ m_observers sub
    ∧ subjects st' = delete s (subjects st)
    ∧ (∀ o, is_Some (owners st' !! o) ↔ is_Some (owners st !! o)).
Proof.
  intros Hu Hs Hlive. unfold destroy_subject. rewrite Hs. simpl.
  assert (NoDup (m_observers sub)) as Hnd.
  { rewrite <- (dispatch_lookup _ _ _ Hs). apply (uniq_nodup _ Hu). }
  destruct (for_each_release (m_observers sub) st Hu Hnd Hlive)
    as (st1 & -> & Hsh & Hsub & Hfr & Hdom). simpl.
  eexists. split; [done|].
  assert (shrinks [] (m_observers sub) st1 (with_subjects (delete s) st1))
    as Hsh2.
  { split; simpl; try done.
    - intros s'. unfold dispatch at 1. simpl.
      destruct (decide (s' = s)) as [->|Hne].
      + rewrite lookup_delete_eq.
        rewrite (dispatch_same st st1), (dispatch_lookup _ _ _ Hs) by done.
        by rewrite filter_notin_self.
      + rewrite lookup_delete_ne by done.
        symmetry. apply filter_notin_absent. intros x Hx HxL.
        destruct (Hlive x HxL) as (ob & Hob & _).
        rewrite Hsub in Hx. change (x ∈ dispatch st s') in Hx.
        apply Hne. rewrite <- (uniq_seq _ Hu _ _ _ Hx Hob).
        apply (uniq_seq _ Hu _ x); [|done].
        by rewrite (dispatch_lookup _ _ _ Hs).
    - intros o. unfold owned. simpl. by rewrite filter_notin_nil. }
  pose proof (shrinks_trans _ _ _ _ _ _ _ Hsh Hsh2) as Hall.
  rewrite app_nil_r in Hall. simpl in Hall.
  split; [done|]. simpl. split; [done|]. split; [congruence|]. done.
Qed.

(** ** connect on consistent registries *)

Lemma connect_Ok (st st' : state) (o s h : address) (f : target) :
  observer_owner.connect o s f st = Ok (h, st') →
  ∃ X sub,
    owners st !! o = Some X ∧ subjects st !! s = Some sub
    ∧ function_arity f ≤ sizeof_args sub
    ∧ h = brk st
    ∧ observers st' = <[h := Observer o s f]> (observers st)
    ∧ subjects st' = <[s := Subject (sizeof_args sub) (m_observers sub ++ [h])]>
                       (subjects st)
    ∧ owners st' = <[o := set_insert h X]> (owners st)
    ∧ blockers st' = blockers st ∧ brk st' = S h
    ∧ calls st' = calls st ∧ freed st' = freed st.
Proof.
  unfold observer_owner.connect.
  destruct (owners st !! o) as [X|]; [|done]. simpl.
  destruct (subjects st !! s) as [sub|]; [|done]. simpl.
  case_bool_decide; [|done]. intros [= <- <-].
  exists X, sub. by repeat split.
Qed.

Lemma connect_total (st : state) (o s : address) (X : list address)
    (sub : subject) (f : target) :
  owners st !! o = Some X → subjects st !! s = Some sub →
  function_arity f ≤ sizeof_args sub →
  ∃ st', observer_owner.connect o s f st = Ok (brk st, st').
Proof.
  intros Ho Hs Hle. unfold observer_owner.connect. rewrite Ho, Hs. simpl.
  rewrite bool_decide_eq_true_2 by done. eauto.
Qed.

Lemma connect_views (st st' : state) (o s h : address) (f : target) :
  observer_owner.connect o s f st = Ok (h, st') →
  (∀ s', dispatch st' s'
         = if decide (s' = s) then dispatch st s ++ [h] else dispatch st s')
  ∧ (∀ o', owned st' o'
           = if decide (o' = o) then set_insert h (owned st o) else owned st o').
Proof.
  intros Hc. apply connect_Ok in Hc
    as (X & sub & Ho & Hs & _ & _ & _ & Hsub & Hown & _).
  split.
  - intros s'. rewrite (dispatch_insert st st' _ _ _ Hsub). simpl.
    by rewrite (dispatch_lookup _ _ _ Hs).
  - intros o'. rewrite (owned_insert st st' _ _ _ Hown).
    by rewrite (owned_lookup _ _ _ Ho).
Qed.

Lemma inv_fresh_dispatch (st : state) (s h : address) :
  inv st → h ∈ dispatch st s → h < brk st.
Proof.
  intros Hinv Hin. destruct (inv_seq _ Hinv _ _ Hin) as (ob & Hob & _).
  destruct (decide (h < brk st)) as [|Hge]; [done|].
  rewrite (inv_fresh _ Hinv h) in Hob; [done | lia].
Qed.

Lemma inv_fresh_owned (st : state) (o h : address) :
  inv st → h ∈ owned st o → h < brk st.
Proof.
  intros Hinv Hin. destruct (inv_own _ Hinv _ _ Hin) as (ob & Hob & _).
  destruct (decide (h < brk st)) as [|Hge]; [done|].
  rewrite (inv_fresh _ Hinv h) in Hob; [done | lia].
Qed.

Lemma inv_fresh_hidden (st : state) (h : address) :
  inv st → hidden st h → h < brk st.
Proof.
  intros Hinv (b & bl & Hbl & Hin).
  destruct (inv_saved _ Hinv _ _ _ Hbl Hin) as (ob & Hob & _).
  destruct (decide (h < brk st)) as [|Hge]; [done|].
  rewrite (inv_fresh _ Hinv h) in Hob; [done | lia].
Qed.

Lemma connect_inv (st st' : state) (o s h : address) (f : target) :
  inv st → observer_owner.connect o s f st = Ok (h, st') → inv st'.
Proof.
  intros Hinv Hc. pose proof (connect_views _ _ _ _ _ _ Hc) as [Hd Hw].
  apply connect_Ok in Hc
    as (X & sub & Ho & Hs & _ & -> & Hobs & _ & _ & Hb & Hk & _).
  assert (∀ x ob, observers st !! x = Some ob → x ≠ brk st) as Hold.
  { intros x ob Hx ->. rewrite (inv_fresh _ Hinv) in Hx; [done | lia]. }
  split.
  - intros h ob. rewrite Hobs, Hw. destruct (decide (h = brk st)) as [->|Hne].
    + rewrite lookup_insert_eq. intros [= <-]. simpl.
      rewrite decide_True by done. apply elem_of_set_insert. by left.
    + rewrite lookup_insert_ne by done. intros Hob.
      apply (inv_live _ Hinv) in Hob. case_decide as Heq; [|done].
      rewrite Heq in Hob. apply elem_of_set_insert. by right.
  - intros o' h. rewrite Hw, Hobs. case_decide as Heq.
    + subst o'. rewrite elem_of_set_insert. intros [->|Hin].
      * rewrite lookup_insert_eq. by eexists.
      * destruct (inv_own _ Hinv _ _ Hin) as (ob & Hob & Hmo).
        exists ob. rewrite lookup_insert_ne; [done|]. symmetry. by eapply Hold.
    + intros Hin. destruct (inv_own _ Hinv _ _ Hin) as (ob & Hob & Hmo).
      exists ob. rewrite lookup_insert_ne; [done|]. symmetry. by eapply Hold.
  - intros o'. rewrite Hw. case_decide; [|apply (inv_own_nodup _ Hinv)].
    apply NoDup_set_insert; [|apply (inv_own_nodup _ Hinv)].
    intros Hin. apply (inv_fresh_owned _ _ _ Hinv) in Hin. lia.
  - intros s' h. rewrite Hd, Hobs. case_decide as Heq.
    + subst s'. rewrite elem_of_app, list_elem_of_singleton. intros [Hin| ->].
      * destruct (inv_seq _ Hinv _ _ Hin) as (ob & Hob & Hms).
        exists ob. rewrite lookup_insert_ne; [done|]. symmetry. by eapply Hold.
      * rewrite lookup_insert_eq. by eexists.
    + intros Hin. destruct (inv_seq _ Hinv _ _ Hin) as (ob & Hob & Hms).
      exists ob. rewrite lookup_insert_ne; [done|]. symmetry. by eapply Hold.
  - intros s'. rewrite Hd. case_decide; [|apply (inv_seq_nodup _ Hinv)].
    apply NoDup_app. split; [apply (inv_seq_nodup _ Hinv)|]. split.
    + intros x Hin. rewrite list_elem_of_singleton. intros ->.
      apply (inv_fresh_dispatch _ _ _ Hinv) in Hin. lia.
    + apply NoDup_singleton.
  - intros b bl h. rewrite Hb, Hobs. intros Hbl Hin.
    destruct (inv_saved _ Hinv _ _ _ Hbl Hin) as (ob & Hob & Hms).
    exists ob. rewrite lookup_insert_ne; [done|]. symmetry. by eapply Hold.
  - intros b bl. rewrite Hb. apply (inv_saved_nodup _ Hinv).
  - intros b b' bl bl' h. rewrite Hb. apply (inv_saved_disj _ Hinv).
  - intros s' h. rewrite Hd, (hidden_blockers st st') by done.
    case_decide; [|apply (inv_seq_saved _ Hinv)].
    rewrite elem_of_app, list_elem_of_singleton. intros [Hin| ->].
    + by apply (inv_seq_saved _ Hinv s).
    + intros Hhid. apply (inv_fresh_hidden _ _ Hinv) in Hhid. lia.
  - intros h. rewrite Hk, Hobs. intros Hge.
    rewrite lookup_insert_ne by lia. apply (inv_fresh _ Hinv). lia.
Qed.

Lemma connect_wf (st st' : state) (o s h : address) (f : target) :
  wf st → observer_owner.connect o s f st = Ok (h, st') → wf st'.
Proof.
  intros [Hinv Hatt] Hc. split; [by eapply connect_inv|].
  pose proof (connect_views _ _ _ _ _ _ Hc) as [Hd _].
  apply connect_Ok in Hc
    as (X & sub & Ho & Hs & _ & -> & Hobs & _).
  intros h ob. rewrite Hobs, Hd. destruct (decide (h = brk st)) as [->|Hne].
  - rewrite lookup_insert_eq. intros [= <-]. simpl.
    rewrite decide_True by done. rewrite elem_of_app, list_elem_of_singleton. auto.
  - rewrite lookup_insert_ne by done. intros Hob.
    apply Hatt in Hob. case_decide as Heq; [|done].
    rewrite Heq in Hob. rewrite elem_of_app. auto.
Qed.

(** ** Teardown in either order *)

Lemma wf_owned_live (st : state) (o h : address) :
  wf st → h ∈ owned st o →
  ∃ ob, observers st !! h = Some ob ∧ is_Some (subjects st !! m_subject ob).
Proof.
  intros [Hinv Hatt] Hin.
  destruct (inv_own _ Hinv _ _ Hin) as (ob & Hob & _).
  exists ob. split; [done|].
  apply Hatt, elem_of_dispatch in Hob as (sub & -> & _). by eexists.
Qed.

Lemma inv_dispatch_live (st : state) (s h : address) :
  inv st → h ∈ dispatch st s →
  ∃ ob, observers st !! h = Some ob ∧ h ∈ owned st (m_owner ob).
Proof.
  intros Hinv Hin. destruct (inv_seq _ Hinv _ _ Hin) as (ob & Hob & _).
  exists ob. split; [done|]. by apply (inv_live _ Hinv).
Qed.

Lemma dispatch_is_Some (st : state) (s : address) :
  is_Some (subjects st !! s) →
  ∃ sub, subjects st !! s = Some sub ∧ m_observers sub = dispatch st s.
Proof. intros [sub Hs]. exists sub. by rewrite (dispatch_lookup _ _ _ Hs). Qed.

Lemma owned_is_Some (st : state) (o : address) :
  is_Some (owners st !! o) → owners st !! o = Some (owned st o).
Proof. intros [X HX]. by rewrite (owned_lookup _ _ _ HX). Qed.

Lemma not_is_Some_None {A : Type} (x y : option A) :
  (is_Some x ↔ is_Some y) → y = None → x = None.
Proof.
  intros Hiff ->. destruct x; [|done].
  destruct Hiff as [H _]. by destruct H as [? ?]; [eexists|].
Qed.

(** C1: in a state where the registries are consistent, an owner [o] and a
    subject [s] with a connection between them can be destroyed in either
    order.  Both destructors return; after the first one the surviving
    side holds no entry for a destroyed handle (the owner destructor took
    each of its handles out of its subject, the subject destructor had
    each handle of its sequence released by its owner) and the registries
    are consistent again; after the second one both objects are gone, and
    the handles of [o] and of [s] were destroyed once each. *)
Theorem destruction_order_independence (st : state) (o s : address)
    (X : list address) (sub : subject) (h : address) :
  wf st →
  owners st !! o = Some X →
  subjects st !! s = Some sub →
  h ∈ X → h ∈ m_observers sub →
  (∃ st1 st2 F,
      observer_owner.destroy o st = Ok st1
      ∧ destroy_subject s st1 = Ok st2
      ∧ (∀ s', dispatch st1 s' = filter (λ x, x ∉ X) (dispatch st s'))
      ∧ (∀ x, x ∈ dispatch st1 s → is_Some (observers st1 !! x))
      ∧ wf st1 ∧ wf st2
      ∧ owners st2 !! o = None ∧ subjects st2 !! s = None
      ∧ freed st2 = freed st ++ F ∧ NoDup F
      ∧ (∀ x, x ∈ F ↔ x ∈ X ∨ x ∈ m_observers sub)
      ∧ (∀ x, x ∈ F → observers st2 !! x = None))
  ∧ (∃ st1 st2 F,
      destroy_subject s st = Ok st1
      ∧ observer_owner.destroy o st1 = Ok st2
      ∧ (∀ o', owned st1 o' = filter (λ x, x ∉ m_observers sub) (owned st o'))
      ∧ (∀ x, x ∈ owned st1 o → is_Some (observers st1 !! x))
      ∧ wf st1 ∧ wf st2
      ∧ owners st2 !! o = None ∧ subjects st2 !! s = None
      ∧ freed st2 = freed st ++ F ∧ NoDup F
      ∧ (∀ x, x ∈ F ↔ x ∈ X ∨ x ∈ m_observers sub)
      ∧ (∀ x, x ∈ F → observers st2 !! x = None)).
Proof.
  intros Hwf Ho Hs _ _.
  pose proof (inv_uniq _ (wf_inv _ Hwf)) as Hu.
  pose proof (owned_lookup _ _ _ Ho) as HoX.
  pose proof (dispatch_lookup _ _ _ Hs) as HsL.
  split.
  - destruct (destroy_owner_shrinks st o X Hu Ho)
      as (st1 & Hd1 & Hsh1 & Hfr1 & Hown1 & Hdom1).
    { intros x Hx. apply (wf_owned_live st o); [done | by rewrite HoX]. }
    pose proof (wf_shrink _ _ _ Hwf Hsh1) as Hwf1.
    destruct (dispatch_is_Some st1 s) as (sub1 & Hs1 & HL1).
    { rewrite Hdom1. by eexists. }
    destruct (destroy_subject_shrinks st1 s sub1)
      as (st2 & Hd2 & Hsh2 & Hfr2 & Hsub2 & Hdom2).
    { apply inv_uniq, Hwf1. }
    { done. }
    { intros x Hx. apply (inv_dispatch_live st1 s); [apply Hwf1 | by rewrite <- HL1]. }
    pose proof (wf_shrink _ _ _ Hwf1 Hsh2) as Hwf2.
    rewrite HL1, (sh_dispatch _ _ _ _ Hsh1), HsL in *.
    exists st1, st2, (X ++ filter (λ x, x ∉ X) (m_observers sub)).
    split; [done|]. split; [done|].
    split; [apply (sh_dispatch _ _ _ _ Hsh1)|].
    split.
    { intros x Hx. destruct (inv_seq _ (wf_inv _ Hwf1) _ _ Hx) as (ob & -> & _).
      by eexists. }
    split; [done|]. split; [done|].
    split.
    { apply (not_is_Some_None _ _ (Hdom2 o)). rewrite Hown1. apply lookup_delete_eq. }
    split; [rewrite Hsub2; apply lookup_delete_eq|].
    split; [by rewrite Hfr2, Hfr1, <- (assoc_L (++))|].
    split.
    { apply NoDup_app. split; [rewrite <- HoX; apply (inv_own_nodup _ (wf_inv _ Hwf))|].
      split.
      - intros x Hx. rewrite list_elem_of_filter. tauto.
      - apply NoDup_filter. rewrite <- HsL. apply (inv_seq_nodup _ (wf_inv _ Hwf)). }
    split.
    { intros x. rewrite elem_of_app, list_elem_of_filter.
      destruct (decide (x ∈ X)); tauto. }
    intros x. rewrite elem_of_app. intros Hx.
    rewrite (sh_observers _ _ _ _ Hsh2), (sh_observers _ _ _ _ Hsh1).
    repeat case_decide; try done. tauto.
  - destruct (destroy_subject_shrinks st s sub Hu Hs)
      as (st1 & Hd1 & Hsh1 & Hfr1 & Hsub1 & Hdom1).
    { intros x Hx. apply (inv_dispatch_live st s); [apply Hwf | by rewrite HsL]. }
    pose proof (wf_shrink _ _ _ Hwf Hsh1) as Hwf1.
    pose proof (owned_is_Some st1 o) as Ho1.
    rewrite Hdom1, Ho in Ho1. specialize (Ho1 (mk_is_Some _ _ eq_refl)).
    destruct (destroy_owner_shrinks st1 o (owned st1 o))
      as (st2 & Hd2 & Hsh2 & Hfr2 & Hown2 & Hdom2).
    { apply inv_uniq, Hwf1. }
    { done. }
    { intros x Hx. by apply (wf_owned_live st1 o). }
    pose proof (wf_shrink _ _ _ Hwf1 Hsh2) as Hwf2.
    rewrite (sh_owned _ _ _ _ Hsh1), HoX in *.
    exists st1, st2, (m_observers sub ++ filter (λ x, x ∉ m_observers sub) X).
    split; [done|]. split; [done|].
    split; [apply (sh_owned _ _ _ _ Hsh1)|].
    split.
    { intros x Hx.
      destruct (inv_own _ (wf_inv _ Hwf1) _ _ Hx) as (ob & -> & _).
      by eexists. }
    split; [done|]. split; [done|].
    split; [rewrite Hown2; apply lookup_delete_eq|].
    split.
    { apply (not_is_Some_None _ _ (Hdom2 s)). rewrite Hsub1. apply lookup_delete_eq. }
    split; [by rewrite Hfr2, Hfr1, <- (assoc_L (++))|].
    split.
    { apply NoDup_app. split; [rewrite <- HsL; apply (inv_seq_nodup _ (wf_inv _ Hwf))|].
      split.
      - intros x Hx. rewrite list_elem_of_filter. tauto.
      - apply NoDup_filter. rewrite <- HoX. apply (inv_own_nodup _ (wf_inv _ Hwf)). }
    split.
    { intros x. rewrite elem_of_app, list_elem_of_filter.
      destruct (decide (x ∈ m_observers sub)); tauto. }
    intros x. rewrite elem_of_app. intros Hx.
    rewrite (sh_observers _ _ _ _ Hsh2), (sh_observers _ _ _ _ Hsh1).
    repeat case_decide; try done. tauto.
Qed.

(** ** Notification passes *)

Lemma for_each_app {A : Type} (f : A → state → result state)
    (l1 l2 : list A) (st : state) :
  for_each f (l1 ++ l2) st = (st' ← for_each f l1 st; for_each f l2 st').
Proof.
  revert st. induction l1 as [|x l1 IH]; intros st; simpl; [done|].
  destruct (f x st) as [st1| | |]; simpl; auto.
Qed.

Lemma arity_of_live (st : state) (h : address) (ob : observer) :
  observers st !! h = Some ob → arity_of st h = function_arity (m_function ob).
Proof. intros H. unfold arity_of. by rewrite H. Qed.

Lemma iterators_valid_Ok (s : address) (L : list address) (st st' : state) :
  iterators_valid s L st = Ok st' → st' = st ∧ dispatch st s = L
                                    ∧ is_Some (subjects st !! s).
Proof.
  unfold iterators_valid, dispatch.
  destruct (subjects st !! s) as [sub|]; [|done].
  case_bool_decide; [|done]. intros [= <-]. eauto.
Qed.

Lemma iterators_valid_same (s : address) (sub : subject) (st : state) :
  subjects st !! s = Some sub →
  iterators_valid s (m_observers sub) st = Ok st.
Proof.
  intros Hs. unfold iterators_valid. rewrite Hs.
  by rewrite bool_decide_eq_true_2.
Qed.

Lemma iterators_valid_at (s : address) (sub : subject) (L0 : list address)
    (st : state) :
  subjects st !! s = Some sub → m_observers sub = L0 →
  iterators_valid s L0 st = Ok st.
Proof. intros Hs <-. by apply iterators_valid_same. Qed.

Lemma notify_unfold (fuel : nat) (s : address) (sub : subject)
    (args : list value) (st : state) :
  subjects st !! s = Some sub →
  length args = sizeof_args sub →
  notify (S fuel) s args st
    = for_each (λ h st', st'' ← observer_notify (notify fuel) h args st';
                          iterators_valid s (m_observers sub) st'')
        (m_observers sub) st.
Proof.
  intros Hs Hlen. simpl. rewrite Hs. simpl.
  by rewrite bool_decide_eq_true_2.
Qed.

(** A pass over handles whose callables are passive: each is handed the
    leading arguments and nothing else changes. *)
Lemma for_each_passive
    (nf : address → list value → state → result state)
    (s : address) (sub : subject) (L0 : list address) (args : list value)
    (L : list address) (st : state) :
  subjects st !! s = Some sub →
  m_observers sub = L0 →
  (∀ h, h ∈ L → passive st h ∧ arity_of st h ≤ length args) →
  for_each (λ h st', st'' ← observer_notify nf h args st';
                      iterators_valid s L0 st'') L st
    = Ok (with_calls (calls st ++ map (invocation st args) L) st).
Proof.
  intros Hs HL0. revert st Hs.
  induction L as [|h L IH]; intros st Hs Hpass; simpl.
  - rewrite app_nil_r. by destruct st.
  - destruct (Hpass h) as [(ob & Hob & Hbody) Har]; [by left|].
    rewrite (arity_of_live _ _ _ Hob) in Har.
    rewrite (observer_notify_live nf h ob args st Hob Har). simpl.
    rewrite Hbody. simpl.
    rewrite (iterators_valid_at s sub) by done. simpl.
    rewrite IH; simpl.
    + unfold invocation at 2. rewrite (arity_of_live _ _ _ Hob).
      f_equal. unfold with_calls. simpl. f_equal.
      rewrite <- (assoc_L (++)). done.
    + done.
    + intros h' Hh'. apply Hpass. by right.
Qed.

Lemma notify_passive (fuel : nat) (s : address) (sub : subject)
    (args : list value) (st : state) :
  subjects st !! s = Some sub →
  length args = sizeof_args sub →
  (∀ h, h ∈ m_observers sub → passive st h ∧ arity_of st h ≤ sizeof_args sub) →
  notify (S fuel) s args st
    = Ok (with_calls (calls st ++ map (invocation st args) (m_observers sub)) st).
Proof.
  intros Hs Hlen Hpass. rewrite (notify_unfold _ _ _ _ _ Hs Hlen).
  apply (for_each_passive _ s sub); [done | done |]. rewrite Hlen. done.
Qed.

Lemma disconnect_Ok (st st' : state) (o h : address) :
  observer_owner.disconnect o h st = Ok st' →
  calls st' = calls st ∧ observers st' = delete h (observers st)
  ∧ blockers st' = blockers st ∧ brk st' = brk st.
Proof.
  unfold observer_owner.disconnect, remove_from_subject,
    observer_owner.remove_observer.
  destruct (observers st !! h) as [ob|]; [|done]. simpl.
  destruct (subjects st !! m_subject ob) as [sub|]; [|done]. simpl.
  destruct (owners st !! o) as [X|]; [|done]. simpl.
  case_bool_decide; [|done]. by intros [= <-].
Qed.

(** What a run adds to the record of calls: only invocations of handles
    that were alive when the run started, among them one of every handle
    of [L]; and no handle comes to life. *)
Definition extends (L : list address) (st st' : state) : Prop :=
  ∃ new,
    calls st' = calls st ++ new
    ∧ (∀ c, c ∈ new → is_Some (observers st !! c.1))
    ∧ (∀ h : address, observers st !! h = None → observers st' !! h = None)
    ∧ (∀ h, h ∈ L → ∃ a, (h, a) ∈ new).

Lemma extends_refl (st : state) : extends [] st st.
Proof.
  exists []. rewrite app_nil_r. repeat split; [|done|].
  - by intros c ?%elem_of_nil.
  - by intros h ?%elem_of_nil.
Qed.

Lemma extends_trans (L1 L2 : list address) (st1 st2 st3 : state) :
  extends L1 st1 st2 → extends L2 st2 st3 → extends (L1 ++ L2) st1 st3.
Proof.
  intros (n1 & Hc1 & Hl1 & Hd1 & Hi1) (n2 & Hc2 & Hl2 & Hd2 & Hi2).
  exists (n1 ++ n2). split; [by rewrite Hc2, Hc1, (assoc_L (++))|].
  split; [|split].
  - intros c. rewrite elem_of_app. intros [Hin|Hin]; [by apply Hl1|].
    apply Hl2 in Hin. destruct (observers st1 !! c.1) eqn:E; [by eexists|].
    apply Hd1 in E. rewrite E in Hin. by destruct Hin.
  - intros h Hh. by apply Hd2, Hd1.
  - intros h. rewrite elem_of_app. intros [Hin|Hin].
    + destruct (Hi1 _ Hin) as [a Ha]. exists a. rewrite elem_of_app. auto.
    + destruct (Hi2 _ Hin) as [a Ha]. exists a. rewrite elem_of_app. auto.
Qed.

Lemma extends_weaken (L : list address) (st st' : state) :
  extends L st st' → extends [] st st'.
Proof.
  intros (n & Hc & Hl & Hd & _). exists n. repeat split; try done.
  by intros h ?%elem_of_nil.
Qed.

Lemma observer_notify_extends
    (nf : address → list value → state → result state)
    (h : address) (args : list value) (st st' : state) :
  (∀ s2 a st1 st2, nf s2 a st1 = Ok st2 → extends [] st1 st2) →
  observer_notify nf h args st = Ok st' →
  extends [h] st st'.
Proof.
  intros Hnf. unfold observer_notify.
  destruct (observers st !! h) as [ob|] eqn:Hob; [|done]. simpl.
  destruct (pg_detail.get_first_n _ _) as [args'|]; [|done].
  set (st1 := with_calls (calls st ++ [(h, args')]) st).
  assert (extends [h] st st1) as H1.
  { exists [(h, args')]. repeat split; try done.
    - intros c ->%list_elem_of_singleton. simpl. by eexists.
    - intros x ->%list_elem_of_singleton. exists args'. by left. }
  assert (∀ st2, extends [] st1 st2 → extends [h] st st2) as Hfin.
  { intros st2 H2. apply (extends_trans [h] [] _ _ _ H1 H2). }
  destruct (t_body (m_function ob)) as [|s2|o h'].
  - intros [= <-]. apply Hfin, extends_refl.
  - intros Hr. apply Hfin. by eapply Hnf.
  - intros Hd. apply Hfin. apply disconnect_Ok in Hd as (Hc & Hobs & _).
    exists []. rewrite app_nil_r. split; [done|]. split; [|split].
    + by intros c ?%elem_of_nil.
    + intros x Hx. rewrite Hobs. rewrite lookup_delete. by case_decide.
    + by intros x ?%elem_of_nil.
Qed.

Lemma for_each_notify_extends
    (nf : address → list value → state → result state)
    (s : address) (L0 : list address) (args : list value)
    (L : list address) (st st' : state) :
  (∀ s2 a st1 st2, nf s2 a st1 = Ok st2 → extends [] st1 st2) →
  for_each (λ h st', st'' ← observer_notify nf h args st';
                      iterators_valid s L0 st'') L st = Ok st' →
  extends L st st' ∧ (L ≠ [] → dispatch st' s = L0) ∧ (L = [] → st' = st).
Proof.
  intros Hnf. revert st. induction L as [|h L IH]; intros st; simpl.
  - intros [= <-]. split; [apply extends_refl | done].
  - destruct (observer_notify nf h args st) as [st1| | |] eqn:Hn;
      try done. simpl.
    destruct (iterators_valid s L0 st1) as [st2| | |] eqn:Hv;
      try done. simpl.
    apply iterators_valid_Ok in Hv as (-> & Hd1 & _).
    apply observer_notify_extends in Hn; [|done].
    intros Hrest. destruct (IH _ Hrest) as (He & Hd & Hnil).
    split; [|split; [|done]].
    + apply (extends_trans [h] L _ _ _ Hn He).
    + intros _. destruct L as [|h' L]; [|by apply Hd].
      by rewrite Hnil.
Qed.

Lemma notify_extends (fuel : nat) (s : address) (args : list value)
    (st st' : state) :
  notify fuel s args st = Ok st' →
  extends (dispatch st s) st st' ∧ dispatch st' s = dispatch st s.
Proof.
  revert s args st st'. induction fuel as [|fuel IH]; intros s args st st'.
  { done. }
  simpl. destruct (subjects st !! s) as [sub|] eqn:Hs; [|done]. simpl.
  case_bool_decide; [|done].
  rewrite (dispatch_lookup _ _ _ Hs). intros Hrun.
  apply for_each_notify_extends in Hrun as (He & Hd & Hnil).
  - split; [done|]. destruct (m_observers sub) as [|h L] eqn:HL.
    + rewrite Hnil by done. by rewrite (dispatch_lookup _ _ _ Hs).
    + by apply Hd.
  - intros s2 a st1 st2 Hr. apply IH in Hr as [Hr _].
    by eapply extends_weaken.
Qed.

(** ** Passes with callables that do not disconnect *)

Lemma with_calls_idem (c c' : list (address * list value)) (st : state) :
  with_calls c (with_calls c' st) = with_calls c st.
Proof. done. Qed.

Lemma with_calls_self (st : state) : with_calls (calls st) st = st.
Proof. by destruct st. Qed.

Lemma quiet_with_calls (c : list (address * list value)) (st : state) :
  quiet st → quiet (with_calls c st).
Proof. intros Hq h ob Hob. by apply (Hq h ob). Qed.

Lemma observer_notify_quiet
    (nf : address → list value → state → result state)
    (h : address) (args : list value) (st st' : state) :
  quiet st →
  (∀ s2 a st1 st2, quiet st1 → nf s2 a st1 = Ok st2 →
     st2 = with_calls (calls st2) st1) →
  observer_notify nf h args st = Ok st' →
  st' = with_calls (calls st') st.
Proof.
  intros Hq Hnf. unfold observer_notify.
  destruct (observers st !! h) as [ob|] eqn:Hob; [|done]. simpl.
  destruct (pg_detail.get_first_n _ _) as [args'|]; [|done].
  destruct (t_body (m_function ob)) as [|s2|o h'] eqn:Hb.
  - by intros [= <-].
  - intros Hr. apply Hnf in Hr; [|by apply quiet_with_calls].
    rewrite Hr. done.
  - by destruct (Hq _ _ Hob o h').
Qed.

Lemma notify_quiet (fuel : nat) (s : address) (args : list value)
    (st st' : state) :
  quiet st → notify fuel s args st = Ok st' →
  st' = with_calls (calls st') st.
Proof.
  revert s args st st'. induction fuel as [|fuel IH]; intros s args st st' Hq.
  { done. }
  simpl. destruct (subjects st !! s) as [sub|]; [|done]. simpl.
  case_bool_decide; [|done]. generalize (m_observers sub) at 2 as L.
  intros L. revert st Hq. induction L as [|h L IHL]; intros st Hq; simpl.
  - intros [= <-]. by rewrite with_calls_self.
  - destruct (observer_notify (notify fuel) h args st) as [st1| | |] eqn:Hn;
      try done. simpl.
    destruct (iterators_valid s (m_observers sub) st1) as [st2| | |] eqn:Hv;
      try done. simpl.
    apply iterators_valid_Ok in Hv as (-> & _).
    apply observer_notify_quiet in Hn; [|done|].
    + intros Hrest. apply IHL in Hrest.
      * rewrite Hrest, Hn. done.
      * rewrite Hn. by apply quiet_with_calls.
    + intros s2 a st2 st3 Hq2 Hr. by apply (IH s2 a).
Qed.

Lemma inv_with_calls (c : list (address * list value)) (st : state) :
  inv st → inv (with_calls c st).
Proof. intros []. by split. Qed.

Lemma wf_with_calls (c : list (address * list value)) (st : state) :
  wf st → wf (with_calls c st).
Proof. intros [Hinv Hatt]. split; [by apply inv_with_calls | done]. Qed.

(** ** Construction and blockers keep the registries consistent *)

Lemma inv_empty : inv empty_state.
Proof.
  split; try done.
  - intros o h Hin. by apply elem_of_nil in Hin.
  - intros o. apply NoDup_nil_2.
  - intros s h Hin. by apply elem_of_nil in Hin.
  - intros s. apply NoDup_nil_2.
  - intros s h Hin. by apply elem_of_nil in Hin.
Qed.

Lemma wf_empty : wf empty_state.
Proof. split; [apply inv_empty | done]. Qed.

Lemma new_subject_shrinks (s : address) (n : nat) (st : state) :
  subjects st !! s = None → shrinks [] [] st (new_subject s n st).
Proof.
  intros Hs. split; simpl; try done.
  - intros s'. rewrite filter_notin_nil.
    erewrite dispatch_insert by done. case_decide as Heq; [|done].
    subst s'. unfold dispatch. by rewrite Hs.
  - intros o. by rewrite filter_notin_nil.
Qed.

Lemma new_owner_shrinks (o : address) (st : state) :
  owners st !! o = None → shrinks [] [] st (new_owner o st).
Proof.
  intros Ho. split; simpl; try done.
  - intros s. by rewrite filter_notin_nil.
  - intros o'. rewrite filter_notin_nil.
    erewrite owned_insert by done. case_decide as Heq; [|done].
    subst o'. unfold owned. by rewrite Ho.
Qed.

Lemma block_inv (b s : address) (st st' : state) :
  inv st → blockers st !! b = None → block b s st = Ok st' → inv st'.
Proof.
  intros Hinv Hb. unfold block.
  destruct (subjects st !! s) as [sub|] eqn:Hs; [|done]. simpl.
  intros [= <-].
  pose proof (dispatch_lookup _ _ _ Hs) as HL.
  set (st' := with_blockers _ _).
  assert (∀ s', dispatch st' s' = if decide (s' = s) then [] else dispatch st s')
    as Hd.
  { intros s'. by erewrite dispatch_insert by done. }
  assert (∀ h, hidden st' h ↔ hidden st h ∨ h ∈ m_observers sub) as Hh.
  { intros h. unfold hidden. simpl. split.
    - intros (b' & bl & Hbl & Hin). destruct (decide (b' = b)) as [->|Hne].
      + rewrite lookup_insert_eq in Hbl. injection Hbl as <-. by right.
      + rewrite lookup_insert_ne in Hbl by done. left. by exists b', bl.
    - intros [(b' & bl & Hbl & Hin)|Hin].
      + exists b', bl. split; [|done]. rewrite lookup_insert_ne; [done|].
        intros ->. by rewrite Hb in Hbl.
      + eexists b, _. rewrite lookup_insert_eq. done. }
  split.
  - apply (inv_live _ Hinv).
  - apply (inv_own _ Hinv).
  - apply (inv_own_nodup _ Hinv).
  - intros s' h. rewrite Hd. case_decide; [by intros ?%elem_of_nil|].
    apply (inv_seq _ Hinv).
  - intros s'. rewrite Hd. case_decide; [apply NoDup_nil_2|].
    apply (inv_seq_nodup _ Hinv).
  - intros b' bl h. simpl. destruct (decide (b' = b)) as [->|Hne].
    + rewrite lookup_insert_eq. intros [= <-]. simpl. rewrite <- HL.
      apply (inv_seq _ Hinv).
    + rewrite lookup_insert_ne by done. apply (inv_saved _ Hinv).
  - intros b' bl. simpl. destruct (decide (b' = b)) as [->|Hne].
    + rewrite lookup_insert_eq. intros [= <-]. simpl. rewrite <- HL.
      apply (inv_seq_nodup _ Hinv).
    + rewrite lookup_insert_ne by done. apply (inv_saved_nodup _ Hinv).
  - intros b1 b2 bl1 bl2 h Hne. simpl.
    destruct (decide (b1 = b)) as [->|Hne1];
      destruct (decide (b2 = b)) as [->|Hne2]; try done.
    + rewrite lookup_insert_eq, lookup_insert_ne by done.
      intros [= <-] Hbl2. simpl. rewrite <- HL. intros Hin Hin2.
      apply (inv_seq_saved _ Hinv _ _ Hin). by exists b2, bl2.
    + rewrite lookup_insert_eq, lookup_insert_ne by done.
      intros Hbl1 [= <-] Hin1. simpl. rewrite <- HL. intros Hin.
      apply (inv_seq_saved _ Hinv _ _ Hin). by exists b1, bl1.
    + rewrite !lookup_insert_ne by done. apply (inv_saved_disj _ Hinv _ _ _ _ _ Hne).
  - intros s' h. rewrite Hd, Hh. case_decide as Hne; [by intros ?%elem_of_nil|].
    intros Hin [Hhid|Hin2].
    + by apply (inv_seq_saved _ Hinv _ _ Hin).
    + rewrite <- HL in Hin2. apply Hne.
      destruct (inv_seq _ Hinv _ _ Hin) as (ob & Hob & <-).
      destruct (inv_seq _ Hinv _ _ Hin2) as (ob' & Hob' & <-). congruence.
  - apply (inv_fresh _ Hinv).
Qed.

Lemma unblock_inv (b : address) (st st' : state) :
  inv st → unblock b st = Ok st' → inv st'.
Proof.
  intros Hinv. unfold unblock.
  destruct (blockers st !! b) as [bl|] eqn:Hb; [|done]. simpl.
  destruct (subjects st !! b_subject bl) as [sub|] eqn:Hs; [|done]. simpl.
  intros [= <-]. set (st' := with_blockers _ _).
  assert (∀ s', dispatch st' s'
            = if decide (s' = b_subject bl) then b_observers bl
              else dispatch st s') as Hd.
  { intros s'. by erewrite dispatch_insert by done. }
  assert (∀ h, hidden st' h → hidden st h) as Hh.
  { intros h (b' & bl' & Hbl & Hin). simpl in Hbl.
    apply lookup_delete_Some in Hbl as [_ Hbl]. by exists b', bl'. }
  split.
  - apply (inv_live _ Hinv).
  - apply (inv_own _ Hinv).
  - apply (inv_own_nodup _ Hinv).
  - intros s' h. rewrite Hd. case_decide as Heq; [|apply (inv_seq _ Hinv)].
    subst s'. apply (inv_saved _ Hinv _ _ _ Hb).
  - intros s'. rewrite Hd. case_decide; [|apply (inv_seq_nodup _ Hinv)].
    apply (inv_saved_nodup _ Hinv _ _ Hb).
  - intros b' bl' h. simpl. intros [_ Hbl]%lookup_delete_Some.
    apply (inv_saved _ Hinv _ _ _ Hbl).
  - intros b' bl'. simpl. intros [_ Hbl]%lookup_delete_Some.
    by apply (inv_saved_nodup _ Hinv _ _ Hbl).
  - intros b1 b2 bl1 bl2 h Hne. simpl.
    intros [_ Hbl1]%lookup_delete_Some [_ Hbl2]%lookup_delete_Some.
    by apply (inv_saved_disj _ Hinv _ _ _ _ _ Hne).
  - intros s' h. rewrite Hd. case_decide as Heq.
    + intros Hin (b' & bl' & Hbl & Hin'). simpl in Hbl.
      apply lookup_delete_Some in Hbl as [Hne Hbl].
      by apply (inv_saved_disj _ Hinv _ _ _ _ _ Hne Hb Hbl Hin).
    + intros Hin Hhid. apply Hh in Hhid.
      by apply (inv_seq_saved _ Hinv _ _ Hin).
  - apply (inv_fresh _ Hinv).
Qed.

(** ** Every reachable state is consistent *)

Lemma disconnect_pre (st st' : state) (o h : address) :
  observer_owner.disconnect o h st = Ok st' →
  ∃ ob, observers st !! h = Some ob
        ∧ is_Some (subjects st !! m_subject ob) ∧ h ∈ owned st o.
Proof.
  unfold observer_owner.disconnect, remove_from_subject,
    observer_owner.remove_observer.
  destruct (observers st !! h) as [ob|]; [|done]. simpl.
  destruct (subjects st !! m_subject ob) as [sub|] eqn:Hs; [|done]. simpl.
  destruct (owners st !! o) as [X|] eqn:HX; [|done]. simpl.
  case_bool_decide; [|done]. intros _. exists ob.
  split; [done|]. split; [by eexists|]. by rewrite (owned_lookup _ _ _ HX).
Qed.

Lemma remove_from_subject_pre (st st' : state) (h : address) :
  remove_from_subject h st = Ok st' →
  ∃ ob, observers st !! h = Some ob ∧ is_Some (subjects st !! m_subject ob).
Proof.
  unfold remove_from_subject.
  destruct (observers st !! h) as [ob|]; [|done]. simpl.
  destruct (subjects st !! m_subject ob) as [sub|] eqn:Hs; [|done].
  intros _. exists ob. split; [done | by eexists].
Qed.

Lemma for_each_detach_pre (L : list address) (st st' : state) :
  uniq st →
  for_each remove_from_subject L st = Ok st' →
  ∀ h, h ∈ L → ∃ ob, observers st !! h = Some ob
                     ∧ is_Some (subjects st !! m_subject ob).
Proof.
  revert st. induction L as [|x L IH]; intros st Hu; simpl.
  - by intros _ h ?%elem_of_nil.
  - destruct (remove_from_subject x st) as [st1| | |] eqn:Hx; try done.
    simpl. intros Hrest h.
    destruct (remove_from_subject_pre _ _ _ Hx) as (ob & Hob & Hsub).
    rewrite elem_of_cons. intros [->|Hin]; [by eauto|].
    destruct (detach_shrinks st x ob Hu Hob Hsub)
      as (st1' & Heq & Hsh & Hobs & _ & _ & Hdom).
    rewrite Hx in Heq. injection Heq as <-.
    destruct (IH st1 (shrinks_uniq _ _ _ _ Hsh Hu) Hrest h Hin)
      as (ob' & Hob' & Hsub').
    exists ob'. by rewrite <- Hobs, <- Hdom.
Qed.

Lemma shrinks_quiet (D U : list address) (st st' : state) :
  shrinks D U st st' → quiet st → quiet st'.
Proof.
  intros Hsh Hq h ob. rewrite (sh_observers _ _ _ _ Hsh).
  case_decide; [done|]. apply Hq.
Qed.

Lemma disconnect_inv (st st' : state) (o h : address) :
  inv st → ¬ hidden st h →
  observer_owner.disconnect o h st = Ok st' →
  inv st' ∧ shrinks [h] [h] st st'.
Proof.
  intros Hinv Hhid Hd.
  destruct (disconnect_pre _ _ _ _ Hd) as (ob & Hob & Hsub & Hin).
  destruct (disconnect_shrinks st o h ob (inv_uniq _ Hinv) Hob Hsub Hin)
    as (st'' & Heq & Hsh & _).
  rewrite Hd in Heq. injection Heq as <-. split; [|done].
  apply (inv_shrink _ _ _ _ Hinv Hsh); [done|].
  by intros x ->%list_elem_of_singleton.
Qed.

Lemma destroy_owner_inv (st st' : state) (o : address) :
  inv st → (∀ h, h ∈ owned st o → ¬ hidden st h) →
  observer_owner.destroy o st = Ok st' →
  inv st' ∧ shrinks (owned st o) (owned st o) st st'.
Proof.
  intros Hinv Hhid Hd. pose proof Hd as Hd'.
  unfold observer_owner.destroy in Hd'.
  destruct (owners st !! o) as [X|] eqn:HX; [|done]. simpl in Hd'.
  destruct (for_each remove_from_subject X st) as [st1| | |] eqn:Hloop;
    try done.
  destruct (destroy_owner_shrinks st o X (inv_uniq _ Hinv) HX)
    as (st'' & Heq & Hsh & _).
  { by apply (for_each_detach_pre X st st1 (inv_uniq _ Hinv)). }
  rewrite Hd in Heq. injection Heq as <-.
  rewrite (owned_lookup _ _ _ HX) in *. split; [|done].
  by apply (inv_shrink _ _ _ _ Hinv Hsh).
Qed.

Lemma destroy_subject_inv (st st' : state) (s : address) :
  inv st → destroy_subject s st = Ok st' →
  inv st' ∧ shrinks (dispatch st s) (dispatch st s) st st'.
Proof.
  intros Hinv Hd. pose proof Hd as Hd'. unfold destroy_subject in Hd'.
  destruct (subjects st !! s) as [sub|] eqn:Hs; [|done]. clear Hd'.
  pose proof (dispatch_lookup _ _ _ Hs) as HL.
  destruct (destroy_subject_shrinks st s sub (inv_uniq _ Hinv) Hs)
    as (st'' & Heq & Hsh & _).
  { intros h Hin. apply (inv_dispatch_live st s); [done | by rewrite HL]. }
  rewrite Hd in Heq. injection Heq as <-. rewrite HL. split; [|done].
  apply (inv_shrink _ _ _ _ Hinv Hsh); [done|].
  intros h Hin. apply (inv_seq_saved _ Hinv s). by rewrite HL.
Qed.

Lemma inv_shrink_nil (st st' : state) :
  inv st → shrinks [] [] st st' → inv st'.
Proof.
  intros Hinv Hsh. apply (inv_shrink _ _ _ _ Hinv Hsh); [done|].
  by intros h ?%elem_of_nil.
Qed.

Lemma step_inv (st st' : state) :
  step st st' → inv st ∧ quiet st → inv st' ∧ quiet st'.
Proof.
  intros Hstep [Hinv Hq]. destruct Hstep.
  - pose proof (new_subject_shrinks s n st H) as Hsh. split.
    + by apply (inv_shrink_nil st).
    + by apply (shrinks_quiet _ _ _ _ Hsh).
  - pose proof (new_owner_shrinks o st H) as Hsh. split.
    + by apply (inv_shrink_nil st).
    + by apply (shrinks_quiet _ _ _ _ Hsh).
  - split; [by eapply connect_inv|].
    apply connect_Ok in H0 as (X & sub & _ & _ & _ & -> & Hobs & _).
    intros x ob. rewrite Hobs. destruct (decide (x = brk st)) as [->|Hne].
    + rewrite lookup_insert_eq. intros [= <-]. apply H.
    + rewrite lookup_insert_ne by done. apply Hq.
  - destruct (disconnect_inv _ _ _ _ Hinv H H0) as [Hinv' Hsh].
    split; [done | by apply (shrinks_quiet _ _ _ _ Hsh)].
  - apply notify_quiet in H; [|done]. rewrite H. split.
    + by apply inv_with_calls.
    + by apply quiet_with_calls.
  - split; [by eapply block_inv|].
    unfold block in H0. destruct (subjects st !! s); [|done].
    injection H0 as <-. apply Hq.
  - split; [by eapply unblock_inv|].
    unfold unblock in H. destruct (blockers st !! b) as [bl|]; [|done].
    simpl in H. destruct (subjects st !! b_subject bl); [|done].
    injection H as <-. apply Hq.
  - destruct (destroy_owner_inv _ _ _ Hinv H H0) as [Hinv' Hsh].
    split; [done | by apply (shrinks_quiet _ _ _ _ Hsh)].
  - destruct (destroy_subject_inv _ _ _ Hinv H) as [Hinv' Hsh].
    split; [done | by apply (shrinks_quiet _ _ _ _ Hsh)].
Qed.

Lemma reachable_inv (st : state) : reachable st → inv st ∧ quiet st.
Proof.
  induction 1 as [|st st' _ IH Hstep].
  - split; [apply inv_empty | done].
  - by apply (step_inv st).
Qed.

(** ** The scenario states *)

Lemma base_wf : wf base.
Proof.
  apply (wf_shrink [] (new_subject 10 1 empty_state)).
  - apply (wf_shrink [] empty_state); [apply wf_empty|].
    by apply new_subject_shrinks.
  - by apply new_owner_shrinks.
Qed.

Lemma one_connect :
  observer_owner.connect 20 10 (Target 1 Passive) base = Ok (0, one).
Proof. reflexivity. Qed.

Lemma one_wf : wf one.
Proof. exact (connect_wf _ _ _ _ _ _ base_wf one_connect). Qed.

Lemma removal_in_pass_wf : wf removal_in_pass.
Proof.
  apply (connect_wf removal_first _ 20 10 1 (Target 1 Passive)); [|reflexivity].
  apply (connect_wf base _ 20 10 0 (Target 1 (Disconnect 20 1)));
    [apply base_wf | reflexivity].
Qed.

Lemma relay_base_wf : wf relay_base.
Proof.
  apply (connect_wf relay_empty _ 20 11 0 (Target 2 Passive)); [|reflexivity].
  apply (wf_shrink [] (new_subject 11 2 (new_subject 10 2 empty_state))).
  - apply (wf_shrink [] (new_subject 10 2 empty_state)).
    + apply (wf_shrink [] empty_state); [apply wf_empty|].
      by apply new_subject_shrinks.
    + by apply new_subject_shrinks.
  - by apply new_owner_shrinks.
Qed.

(** The end-to-end scenario of the specification: the log is [[42]]
    after the first pass and still [[42]] after the disconnect and the
    second pass. *)
Example end_to_end_log :
  (∃ st1, notify 1 10 [VInt 42] one = Ok st1 ∧ calls st1 = [(0, [VInt 42])])
  ∧ ∃ st, end_to_end = Ok st
          ∧ calls st = [(0, [VInt 42])]
          ∧ dispatch st 10 = [] ∧ owned st 20 = [] ∧ freed st = [0].
Proof. split; eexists; by repeat split. Qed.

(** The same callable connected twice: after the disconnect of the first
    handle the second one still fires. *)
Example twice_then_one_log :
  ∃ st, twice_then_one = Ok st
        ∧ calls st = [(1, [VInt 5])] ∧ dispatch st 10 = [1].
Proof. eexists. by repeat split. Qed.

(** ** disconnect *)

(** C3: in a state where the registries are consistent, [disconnect] of a
    handle [h] that the owner holds returns; [h] is taken out of the
    dispatch sequence of its subject and out of the ownership set, and is
    destroyed; every other entry of every sequence and set stays, in its
    order, and the other handles are untouched; no later pass invokes
    [h]. *)
Theorem disconnect_removes_handle (st : state) (o h : address) :
  wf st →
  h ∈ owned st o →
  ∃ st',
    observer_owner.disconnect o h st = Ok st'
    ∧ wf st'
    ∧ (∃ s, h ∈ dispatch st s ∧ h ∉ dispatch st' s)
    ∧ (∀ s, dispatch st' s = filter (λ x, x ≠ h) (dispatch st s))
    ∧ (∀ o', owned st' o' = filter (λ x, x ≠ h) (owned st o'))
    ∧ (h ∉ owned st' o)
    ∧ (∀ x, x ≠ h → observers st' !! x = observers st !! x)
    ∧ observers st' !! h = None
    ∧ freed st' = freed st ++ [h]
    ∧ calls st' = calls st
    ∧ (∀ fuel s args st'', notify fuel s args st' = Ok st'' →
         ∀ a, (h, a) ∉ drop (length (calls st')) (calls st'')).
Proof.
  intros Hwf Hin.
  destruct (wf_owned_live st o h Hwf Hin) as (ob & Hob & Hsub).
  destruct (disconnect_shrinks st o h ob (inv_uniq _ (wf_inv _ Hwf)) Hob Hsub Hin)
    as (st' & Hd & Hsh & Hfr & _).
  exists st'. split; [done|].
  split; [by apply (wf_shrink [h] st)|].
  assert (∀ s, dispatch st' s = filter (λ x, x ≠ h) (dispatch st s)) as Hdisp.
  { intros s. by rewrite (sh_dispatch _ _ _ _ Hsh), filter_notin_singleton. }
  assert (∀ o', owned st' o' = filter (λ x, x ≠ h) (owned st o')) as Hown.
  { intros o'. by rewrite (sh_owned _ _ _ _ Hsh), filter_notin_singleton. }
  assert (observers st' !! h = None) as Hgone.
  { rewrite (sh_observers _ _ _ _ Hsh). rewrite decide_True; [done | by left]. }
  split.
  { exists (m_subject ob). split; [by apply (wf_attached _ Hwf)|].
    rewrite Hdisp, list_elem_of_filter. tauto. }
  split; [done|]. split; [done|].
  split; [rewrite Hown, list_elem_of_filter; tauto|].
  split.
  { intros x Hne. rewrite (sh_observers _ _ _ _ Hsh).
    rewrite decide_False; [done|]. by rewrite list_elem_of_singleton. }
  split; [done|]. split; [done|].
  split; [apply (disconnect_Ok _ _ _ _ Hd)|].
  intros fuel s args st'' Hn a Hcall.
  apply notify_extends in Hn as [(new & Hc & Hlive & _) _].
  rewrite Hc, drop_app_length in Hcall.
  apply Hlive in Hcall. simpl in Hcall. rewrite Hgone in Hcall.
  by destruct Hcall.
Qed.

(** ** A sequence of connects, then a pass *)

Lemma connect_all_spec (s : address) (cs : list (address * target))
    (st : state) (sub : subject) :
  inv st →
  subjects st !! s = Some sub →
  (∀ o f, (o, f) ∈ cs →
     is_Some (owners st !! o) ∧ function_arity f ≤ sizeof_args sub) →
  ∃ st1,
    connect_all s cs st = Ok (seq (brk st) (length cs), st1)
    ∧ inv st1
    ∧ subjects st1 !! s
      = Some (Subject (sizeof_args sub)
                (m_observers sub ++ seq (brk st) (length cs)))
    ∧ (∀ h ob, observers st !! h = Some ob → observers st1 !! h = Some ob)
    ∧ (∀ i o f, cs !! i = Some (o, f) →
         observers st1 !! (brk st + i) = Some (Observer o s f))
    ∧ calls st1 = calls st.
Proof.
  revert st sub. induction cs as [|[o f] cs IH]; intros st sub Hinv Hs Hcs.
  - exists st. simpl. rewrite app_nil_r. destruct sub.
    split; [done|]. split; [done|]. split; [done|]. split; [done|].
    split; [|done]. intros i o f Hi. by rewrite lookup_nil in Hi.
  - destruct (Hcs o f) as [[X HX] Hle]; [by left|].
    destruct (connect_total st o s X sub f HX Hs Hle) as [st' Hc].
    pose proof (connect_inv _ _ _ _ _ _ Hinv Hc) as Hinv'.
    pose proof Hc as Hc'.
    apply connect_Ok in Hc'
      as (X' & sub' & HX' & Hs' & _ & _ & Hobs & Hsub & Hown & _ & Hk & Hcalls & _).
    assert (sub' = sub) as -> by congruence.
    destruct (IH st' (Subject (sizeof_args sub) (m_observers sub ++ [brk st])))
      as (st1 & Hall & Hinv1 & Hs1 & Hkeep & Hnew & Hcalls1).
    { done. }
    { rewrite Hsub. apply lookup_insert_eq. }
    { intros o' f' Hin. destruct (Hcs o' f') as [Ho' Hle']; [by right|].
      split; [|done]. rewrite Hown.
      destruct (decide (o' = o)) as [->|Hne].
      - rewrite lookup_insert_eq. by eexists.
      - by rewrite lookup_insert_ne. }
    exists st1. simpl. rewrite Hc. simpl. rewrite Hall. simpl.
    rewrite Hk. split; [done|]. split; [done|]. split.
    { rewrite Hs1, Hk. simpl. by rewrite <- (assoc_L (++)). }
    split.
    { intros h ob Hob. apply Hkeep. rewrite Hobs.
      rewrite lookup_insert_ne; [done|]. intros <-.
      rewrite (inv_fresh _ Hinv) in Hob; [done | lia]. }
    split; [|congruence].
    intros [|i] o' f' Hi; simpl in Hi.
    + injection Hi as <- <-. rewrite Nat.add_0_r. apply Hkeep.
      rewrite Hobs. apply lookup_insert_eq.
    + replace (brk st + S i) with (brk st' + i) by lia. by apply Hnew.
Qed.

Lemma map_invocation_seq (s : address) (cs : list (address * target))
    (st1 : state) (args : list value) (b : address) :
  (∀ i o f, cs !! i = Some (o, f) →
     observers st1 !! (b + i) = Some (Observer o s f)) →
  map (invocation st1 args) (seq b (length cs))
    = zip_with (λ h c, (h, take (function_arity c.2) args))
        (seq b (length cs)) cs.
Proof.
  revert b. induction cs as [|[o f] cs IH]; intros b Hnew; simpl; [done|].
  f_equal.
  - unfold invocation. rewrite (arity_of_live _ _ (Observer o s f)); [done|].
    rewrite <- (Nat.add_0_r b). by apply (Hnew 0).
  - apply IH. intros i o' f' Hi.
    replace (S b + i) with (b + S i) by lia. by apply (Hnew (S i)).
Qed.

(** C2: [N] connects of passive callables to one subject, then a pass.
    The handles come into the dispatch sequence in the order of the
    connects, behind the ones that were there; the pass returns and
    records one invocation per handle of the sequence, in that order, each
    with the leading arguments its callable takes, which is [args] itself
    for a callable of the subject's arity; nothing but the record of calls
    changes. *)
Theorem notify_in_connection_order (st : state) (s : address) (sub : subject)
    (cs : list (address * target)) (args : list value) (fuel : nat) :
  inv st →
  subjects st !! s = Some sub →
  length args = sizeof_args sub →
  (∀ h, h ∈ m_observers sub →
     passive st h ∧ arity_of st h ≤ sizeof_args sub) →
  (∀ o f, (o, f) ∈ cs →
     is_Some (owners st !! o) ∧ t_body f = Passive
     ∧ function_arity f ≤ sizeof_args sub) →
  ∃ hs st1 st2,
    connect_all s cs st = Ok (hs, st1)
    ∧ length hs = length cs
    ∧ dispatch st1 s = m_observers sub ++ hs
    ∧ NoDup (m_observers sub ++ hs)
    ∧ notify (S fuel) s args st1 = Ok st2
    ∧ st2 = with_calls (calls st2) st1
    ∧ calls st2
      = calls st ++ map (invocation st args) (m_observers sub)
        ++ zip_with (λ h c, (h, take (function_arity c.2) args)) hs cs
    ∧ (∀ c, c ∈ cs → function_arity c.2 = sizeof_args sub →
         take (function_arity c.2) args = args).
Proof.
  intros Hinv Hs Hlen Hold Hcs.
  destruct (connect_all_spec s cs st sub Hinv Hs)
    as (st1 & Hall & Hinv1 & Hs1 & Hkeep & Hnew & Hcalls).
  { intros o f Hin. destruct (Hcs o f Hin) as (? & _ & ?). done. }
  set (hs := seq (brk st) (length cs)) in *.
  pose proof (dispatch_lookup _ _ _ Hs1) as Hd1. simpl in Hd1.
  assert (∀ h, h ∈ m_observers sub → invocation st1 args h = invocation st args h)
    as Hsame.
  { intros h Hin. destruct (Hold h Hin) as [(ob & Hob & _) _].
    unfold invocation.
    by rewrite (arity_of_live _ _ _ Hob), (arity_of_live _ _ _ (Hkeep _ _ Hob)). }
  exists hs, st1,
    (with_calls (calls st1 ++ map (invocation st1 args) (m_observers sub ++ hs))
       st1).
  split; [done|].
  split; [apply length_seq|]. split; [done|].
  split; [rewrite <- Hd1; apply (inv_seq_nodup _ Hinv1)|].
  split.
  { apply (notify_passive fuel s _ args st1 Hs1); [done|]. simpl.
    intros h. rewrite elem_of_app. intros [Hin|Hin].
    - destruct (Hold h Hin) as [(ob & Hob & Hbody) Har].
      rewrite (arity_of_live _ _ _ Hob) in Har.
      pose proof (Hkeep _ _ Hob) as Hob1.
      split; [by exists ob|]. by rewrite (arity_of_live _ _ _ Hob1).
    - apply elem_of_seq in Hin as [Hge Hlt].
      destruct (lookup_lt_is_Some_2 cs (h - brk st)) as [[o f] Hi]; [lia|].
      pose proof (Hnew _ _ _ Hi) as Hob1.
      replace (brk st + (h - brk st)) with h in Hob1 by lia.
      destruct (Hcs o f) as (_ & Hbody & Hle); [by eapply list_elem_of_lookup_2|].
      split; [by eexists|]. by rewrite (arity_of_live _ _ _ Hob1). }
  split; [done|]. split.
  { simpl. rewrite Hcalls, map_app. f_equal. f_equal.
    - apply map_ext_in. intros h Hin. apply Hsame. by apply list_elem_of_In.
    - by apply (map_invocation_seq s). }
  intros c _ Har. apply take_ge. lia.
Qed.

(** ** Relay connections *)

(** C7: [connect( A, B )] is the connect of a callback that forwards what
    it receives into [B.notify].  With passive handlers on [A] and on [B],
    a pass over [A] after the relay connection returns: it invokes the
    handlers that [A] had, then the relay, and through it every handler of
    [B] once, in [B]'s order, with the arguments [A] published cut to what
    [B] publishes, which are the arguments themselves when both publish
    the same list; nothing but the record of calls changes. *)
Theorem relay_propagation (st : state) (owner A B : address)
    (X : list address) (subA subB : subject) (args : list value)
    (fuel : nat) :
  inv st →
  A ≠ B →
  owners st !! owner = Some X →
  subjects st !! A = Some subA →
  subjects st !! B = Some subB →
  sizeof_args subB ≤ sizeof_args subA →
  length args = sizeof_args subA →
  (∀ h, h ∈ m_observers subA →
     passive st h ∧ arity_of st h ≤ sizeof_args subA) →
  (∀ h, h ∈ m_observers subB →
     passive st h ∧ arity_of st h ≤ sizeof_args subB) →
  ∃ h st1 st2,
    observer_owner.connect_subject owner A B st = Ok (h, st1)
    ∧ observer_owner.connect_subject owner A B st
      = observer_owner.connect owner A
          (forwarding_callback (sizeof_args subB) B) st
    ∧ dispatch st1 A = m_observers subA ++ [h]
    ∧ dispatch st1 B = m_observers subB
    ∧ notify (S (S fuel)) A args st1 = Ok st2
    ∧ st2 = with_calls (calls st2) st1
    ∧ calls st2
      = calls st ++ map (invocation st args) (m_observers subA)
        ++ [(h, take (sizeof_args subB) args)]
        ++ map (invocation st (take (sizeof_args subB) args)) (m_observers subB)
    ∧ NoDup (m_observers subB)
    ∧ (∀ hb, hb ∈ m_observers subB →
         invocation st (take (sizeof_args subB) args) hb = invocation st args hb)
    ∧ (sizeof_args subB = sizeof_args subA →
         take (sizeof_args subB) args = args).
Proof.
  intros Hinv HAB Ho HA HB Hle Hlen HpA HpB.
  set (f := forwarding_callback (sizeof_args subB) B).
  destruct (connect_total st owner A X subA f Ho HA Hle) as [st1 Hc].
  pose proof (connect_inv _ _ _ _ _ _ Hinv Hc) as Hinv1.
  pose proof (connect_views _ _ _ _ _ _ Hc) as [Hd1 _].
  pose proof Hc as Hc'.
  apply connect_Ok in Hc'
    as (X' & sub' & _ & Hs' & _ & _ & Hobs & Hsub & _ & _ & _ & Hcalls & _).
  assert (sub' = subA) as -> by congruence.
  set (h := brk st) in *.
  assert (∀ x ob, observers st !! x = Some ob → observers st1 !! x = Some ob)
    as Hkeep.
  { intros x ob Hx. rewrite Hobs. rewrite lookup_insert_ne; [done|].
    intros <-. rewrite (inv_fresh _ Hinv) in Hx; [done | unfold h; lia]. }
  assert (subjects st1 !! A
          = Some (Subject (sizeof_args subA) (m_observers subA ++ [h]))) as HA1.
  { rewrite Hsub. apply lookup_insert_eq. }
  assert (subjects st1 !! B = Some subB) as HB1.
  { rewrite Hsub. by rewrite lookup_insert_ne. }
  assert (observers st1 !! h = Some (Observer owner A f)) as Hh.
  { rewrite Hobs. apply lookup_insert_eq. }
  set (args' := take (sizeof_args subB) args).
  assert (length args' = sizeof_args subB) as Hlen'.
  { unfold args'. rewrite length_take. lia. }
  assert (∀ (a : list value) (sub : subject) (n : nat),
            (∀ x, x ∈ m_observers sub → passive st x ∧ arity_of st x ≤ n) →
            ∀ x, x ∈ m_observers sub →
              invocation st1 a x = invocation st a x
              ∧ passive st1 x ∧ arity_of st1 x ≤ n) as Hlift.
  { intros a sub n Hp x Hx. destruct (Hp x Hx) as [(ob & Hob & Hbody) Har].
    pose proof (Hkeep _ _ Hob) as Hob1. unfold invocation.
    rewrite (arity_of_live _ _ _ Hob) in *.
    rewrite (arity_of_live _ _ _ Hob1). split; [done|]. split; [|done].
    by exists ob. }
  set (stA := with_calls (calls st1 ++ map (invocation st1 args) (m_observers subA)) st1).
  set (stR := with_calls (calls stA ++ [(h, args')]) stA).
  set (stB := with_calls (calls stR ++ map (invocation stR args') (m_observers subB)) stR).
  exists h, st1, stB.
  split.
  { unfold observer_owner.connect_subject. rewrite HB. simpl. exact Hc. }
  split.
  { unfold observer_owner.connect_subject. rewrite HB. done. }
  split; [by rewrite Hd1, decide_True, (dispatch_lookup _ _ _ HA)|].
  split; [by rewrite Hd1, decide_False, (dispatch_lookup _ _ _ HB)|].
  split.
  { rewrite (notify_unfold _ _ _ _ _ HA1 Hlen). cbn [m_observers].
    rewrite for_each_app.
    rewrite (for_each_passive (notify (S fuel)) A _ (m_observers subA ++ [h])
               args (m_observers subA) st1 HA1 eq_refl).
    2:{ intros x Hx. destruct (Hlift args subA _ HpA x Hx) as (_ & ? & ?).
        split; [done | lia]. }
    cbn [mbind result_bind for_each]. fold stA.
    rewrite (observer_notify_live _ h (Observer owner A f) args stA Hh);
      [|simpl; lia].
    cbn [m_function f forwarding_callback function_arity t_body].
    fold args'. fold stR.
    rewrite (notify_passive fuel B subB args' stR HB1 Hlen').
    2:{ intros x Hx. destruct (Hlift args' subB _ HpB x Hx) as (_ & ? & ?). done. }
    fold stB. cbn [mbind result_bind].
    by rewrite (iterators_valid_at A _ (m_observers subA ++ [h]) stB HA1 eq_refl). }
  split; [done|]. split.
  { simpl. rewrite Hcalls, <- !(assoc_L (++)). f_equal. f_equal.
    - apply map_ext_in. intros x Hx.
      by apply (Hlift args subA _ HpA), list_elem_of_In.
    - f_equal. apply map_ext_in. intros x Hx.
      by apply (Hlift args' subB _ HpB), list_elem_of_In. }
  split.
  { rewrite <- (dispatch_lookup _ _ _ HB). apply (inv_seq_nodup _ Hinv). }
  split.
  { intros hb Hhb. destruct (HpB hb Hhb) as [_ Har]. unfold invocation, args'.
    f_equal. rewrite take_take. f_equal. lia. }
  intros Heq. apply take_ge. lia.
Qed.

(** ** Changes of the sequence during a pass *)

(** A callback that disconnects a handle of the subject being notified:
    the sequence shrinks under the pass, whose iterators are then
    invalid. *)
Lemma removal_in_pass_undefined (fuel : nat) (s : address) (sub : subject)
    (args : list value) (st : state) (h1 : address) (L : list address)
    (ob1 : observer) (o h2 : address) :
  wf st →
  subjects st !! s = Some sub →
  m_observers sub = h1 :: L →
  length args = sizeof_args sub →
  observers st !! h1 = Some ob1 →
  function_arity (m_function ob1) ≤ length args →
  t_body (m_function ob1) = Disconnect o h2 →
  h2 ∈ h1 :: L →
  h2 ∈ owned st o →
  notify (S fuel) s args st = Undefined.
Proof.
  intros Hwf Hs HL Hlen Hob1 Har Hbody Hin Hown.
  rewrite (notify_unfold _ _ _ _ _ Hs Hlen), HL.
  cbn [for_each].
  rewrite (observer_notify_live _ h1 ob1 args st Hob1 Har). rewrite Hbody.
  cbn zeta.
  set (st1 := with_calls _ st).
  assert (wf st1) as Hwf1 by (by apply wf_with_calls).
  destruct (wf_owned_live st1 o h2 Hwf1 Hown) as (ob2 & Hob2 & Hsub2).
  destruct (disconnect_shrinks st1 o h2 ob2 (inv_uniq _ (wf_inv _ Hwf1))
              Hob2 Hsub2 Hown) as (st2 & -> & Hsh & _ & Hdom & _).
  cbn [mbind result_bind].
  assert (iterators_valid s (h1 :: L) st2 = Undefined) as ->; [|done].
  unfold iterators_valid.
  destruct (subjects st2 !! s) as [sub2|] eqn:Hs2; [|done].
  rewrite bool_decide_eq_false_2; [done|]. intros Heq.
  pose proof (sh_dispatch _ _ _ _ Hsh s) as Hd.
  rewrite (dispatch_lookup _ _ _ Hs2), Heq in Hd.
  change (dispatch st1 s) with (dispatch st s) in Hd.
  rewrite (dispatch_lookup _ _ _ Hs), HL in Hd.
  rewrite Hd in Hin. apply list_elem_of_filter in Hin as [Hno _].
  apply Hno. by left.
Qed.

(** C8, as the code has it: a pass that runs to completion has left the
    dispatch sequence as it was when the pass started, has invoked every
    handle of that sequence, and has invoked only handles that were alive
    when the pass started, no handle having come to life meanwhile.  (The
    pass walks the live vector with the iterators taken at its start; a
    callback that changes the vector does not lead to completion.) *)
Theorem notify_completed_pass (fuel : nat) (s : address) (args : list value)
    (st st' : state) :
  notify fuel s args st = Ok st' →
  dispatch st' s = dispatch st s
  ∧ ∃ new,
      calls st' = calls st ++ new
      ∧ (∀ c, c ∈ new → is_Some (observers st !! c.1))
      ∧ (∀ h, h ∈ dispatch st s → ∃ a, (h, a) ∈ new)
      ∧ (∀ h : address, observers st !! h = None → observers st' !! h = None).
Proof.
  intros Hn. apply notify_extends in Hn as [(new & Hc & Hl & Hd & Hi) Hsame].
  split; [done|]. exists new. by repeat split.
Qed.

(** The claim C8 fails on a pass over two handles whose first callback
    disconnects the second: the callback returns with the second handle
    erased from the sequence and destroyed, and the pass, which took its
    iterators for two entries, does not complete. *)
Lemma removal_during_pass_counterexample :
  wf removal_in_pass
  ∧ dispatch removal_in_pass 10 = [0; 1]
  ∧ (∃ st1,
        observer_notify (notify 0) 0 [VInt 42] removal_in_pass = Ok st1
        ∧ observers st1 !! 1 = None
        ∧ dispatch st1 10 = [0]
        ∧ freed st1 = [1])
  ∧ (∀ fuel, notify (S fuel) 10 [VInt 42] removal_in_pass = Undefined)
  ∧ ¬ ∃ fuel st', notify fuel 10 [VInt 42] removal_in_pass = Ok st'.
Proof.
  split; [apply removal_in_pass_wf|]. split; [reflexivity|].
  split; [eexists; by repeat split|].
  assert (∀ fuel, notify (S fuel) 10 [VInt 42] removal_in_pass = Undefined)
    as Hund.
  { intros fuel.
    apply (removal_in_pass_undefined fuel 10 (Subject 1 [0; 1]) _ _ 0 [1]
             (Observer 20 10 (Target 1 (Disconnect 20 1))) 20 1);
      try reflexivity.
    - apply removal_in_pass_wf.
    - right. left.
    - change (1 ∈ [0; 1]). right. left. }
  split; [done|]. intros (fuel & st' & Hn).
  destruct fuel as [|fuel]; [done|]. by rewrite Hund in Hn.
Qed.

(** ** Dispatch sequences hold owned handles *)

(** C9, as the code has it: in every state reached through the public
    operations, as long as no handle is disconnected and no owner
    destroyed while a blocker holds the handle (or one of the owner's
    handles) in its saved sequence, and callbacks do not disconnect, every
    entry of a dispatch sequence is an alive handle of that subject which
    its owner still holds. *)
Theorem dispatch_holds_owned_handles (st : state) (s h : address) :
  reachable st →
  h ∈ dispatch st s →
  ¬ released st h
  ∧ ∃ ob, observers st !! h = Some ob ∧ m_subject ob = s
          ∧ h ∈ owned st (m_owner ob).
Proof.
  intros Hr Hin. apply reachable_inv in Hr as [Hinv _].
  destruct (inv_seq _ Hinv _ _ Hin) as (ob & Hob & Hms).
  pose proof (inv_live _ Hinv _ _ Hob) as Hown.
  split; [|by exists ob]. intros Hrel. by apply (Hrel (m_owner ob)).
Qed.

Lemma one_reachable : reachable one.
Proof.
  apply (reachable_step base).
  - apply (reachable_step (new_subject 10 1 empty_state)).
    + apply (reachable_step empty_state); [constructor|].
      by apply step_new_subject.
    + by apply step_new_owner.
  - by apply (step_connect 20 10 (Target 1 Passive) 0).
Qed.

(** The claim C9 fails when a handle is disconnected while a blocker is
    alive: the disconnect finds nothing to take out of the emptied
    sequence, the handle is destroyed, and the blocker puts it back. *)
Lemma restored_holds_released_handle :
  reachable_any restored
  ∧ 0 ∈ dispatch restored 10
  ∧ released restored 0
  ∧ observers restored !! 0 = None
  ∧ ∀ fuel, notify (S fuel) 10 [VInt 7] restored = Undefined.
Proof.
  split.
  { apply (reachable_any_step blocked_released); [|by apply (any_unblock 30)].
    apply (reachable_any_step blocked); [|by apply (any_disconnect 20 0)].
    apply (reachable_any_step one); [|by apply (any_block 30 10)].
    apply (reachable_any_step base);
      [|by apply (any_connect 20 10 (Target 1 Passive) 0)].
    apply (reachable_any_step (new_subject 10 1 empty_state));
      [|by apply any_new_owner].
    apply (reachable_any_step empty_state); [constructor|].
    by apply any_new_subject. }
  split; [by left|]. split; [|split; [done|by intros fuel]].
  intros o. unfold owned.
  assert (owners restored = <[20 := []]> ∅) as -> by reflexivity.
  destruct (decide (o = 20)) as [->|Hne].
  - rewrite lookup_insert_eq. apply not_elem_of_nil.
  - rewrite lookup_insert_ne, lookup_empty by done. apply not_elem_of_nil.
Qed.

(** ** The theorems at the scenario states *)

Lemma destruction_order_independence_witness :
  wf one
  ∧ owners one !! 20 = Some [0]
  ∧ subjects one !! 10 = Some (Subject 1 [0])
  ∧ (∃ st1 st2,
        observer_owner.destroy 20 one = Ok st1
        ∧ destroy_subject 10 st1 = Ok st2 ∧ wf st1 ∧ wf st2)
  ∧ (∃ st1 st2,
        destroy_subject 10 one = Ok st1
        ∧ observer_owner.destroy 20 st1 = Ok st2 ∧ wf st1 ∧ wf st2).
Proof.
  assert (0 ∈ [0]) as Hin by left.
  destruct (destruction_order_independence one 20 10 [0] (Subject 1 [0]) 0
              one_wf eq_refl eq_refl Hin Hin)
    as [(a1 & a2 & Fa & Ha1 & Ha2 & _ & _ & Ha3 & Ha4 & _)
        (b1 & b2 & Fb & Hb1 & Hb2 & _ & _ & Hb3 & Hb4 & _)].
  split; [exact one_wf|]. split; [reflexivity|]. split; [reflexivity|].
  split.
  - exists a1, a2. repeat (split; [assumption|]); assumption.
  - exists b1, b2. repeat (split; [assumption|]); assumption.
Defined.

Lemma notify_in_connection_order_witness :
  inv base
  ∧ subjects base !! 10 = Some (Subject 1 [])
  ∧ ∃ hs st1 st2,
      connect_all 10 [(20, Target 1 Passive); (20, Target 1 Passive)] base
        = Ok (hs, st1)
      ∧ dispatch st1 10 = hs
      ∧ notify 1 10 [VInt 42] st1 = Ok st2
      ∧ calls st2
        = zip_with (λ h c, (h, take (function_arity c.2) [VInt 42])) hs
            [(20, Target 1 Passive); (20, Target 1 Passive)].
Proof.
  assert (∀ h, h ∈ m_observers (Subject 1 []) →
            passive base h ∧ arity_of base h ≤ sizeof_args (Subject 1 []))
    as Hold.
  { intros h Hh. simpl in Hh. by apply elem_of_nil in Hh. }
  assert (∀ o f, (o, f) ∈ [(20, Target 1 Passive); (20, Target 1 Passive)] →
            is_Some (owners base !! o) ∧ t_body f = Passive
            ∧ function_arity f ≤ sizeof_args (Subject 1 [])) as Hcs.
  { intros o f Hin.
    assert ((o, f) = (20, Target 1 Passive)) as Heq.
    { apply elem_of_cons in Hin as [Hin|Hin]; [exact Hin|].
      apply elem_of_cons in Hin as [Hin|Hin]; [exact Hin|].
      by apply elem_of_nil in Hin. }
    injection Heq as -> ->. split; [by eexists|]. split; [reflexivity|].
    simpl. lia. }
  destruct (notify_in_connection_order base 10 (Subject 1 [])
              [(20, Target 1 Passive); (20, Target 1 Passive)] [VInt 42] 0
              (wf_inv _ base_wf) eq_refl eq_refl Hold Hcs)
    as (hs & st1 & st2 & H1 & _ & H3 & _ & H5 & _ & H7 & _).
  split; [exact (wf_inv _ base_wf)|]. split; [reflexivity|].
  exists hs, st1, st2. repeat (split; [assumption|]); assumption.
Defined.

Lemma disconnect_removes_handle_witness :
  wf one
  ∧ 0 ∈ owned one 20
  ∧ ∃ st',
      observer_owner.disconnect 20 0 one = Ok st'
      ∧ wf st'
      ∧ observers st' !! 0 = None
      ∧ freed st' = freed one ++ [0].
Proof.
  assert (0 ∈ owned one 20) as Hin by (change (0 ∈ [0]); left).
  destruct (disconnect_removes_handle one 20 0 one_wf Hin)
    as (st' & H1 & H2 & _ & _ & _ & _ & _ & H8 & H9 & _).
  split; [exact one_wf|]. split; [exact Hin|].
  exists st'. repeat (split; [assumption|]); assumption.
Defined.

Lemma blocker_round_trip_witness :
  subjects one !! 10 = Some (Subject 1 [0])
  ∧ blockers one !! 30 = None
  ∧ ∃ st1,
      block 30 10 one = Ok st1
      ∧ dispatch st1 10 = []
      ∧ (∀ fuel args, length args = 1 → notify (S fuel) 10 args st1 = Ok st1)
      ∧ unblock 30 st1 = Ok one.
Proof.
  destruct (blocker_round_trip one 30 10 (Subject 1 [0]) eq_refl eq_refl)
    as (st1 & H1 & H2 & _ & _ & H5 & H6 & _).
  split; [reflexivity|]. split; [reflexivity|].
  exists st1. repeat (split; [assumption|]); assumption.
Defined.

Lemma arity_truncation_witness :
  owners base3 !! 20 = Some []
  ∧ subjects base3 !! 10 = Some (Subject 3 [])
  ∧ length args3 = 3
  ∧ pg_detail.get_first_n 1 args3 = Some [VInt 1]
  ∧ (∃ h st', observer_owner.connect 20 10 (Target 1 Passive) base3 = Ok (h, st'))
  ∧ observer_owner.connect 20 10 (Target 4 Passive) base3 = Rejected.
Proof.
  destruct (arity_truncation base3 20 10 [] (Subject 3 []) (Target 1 Passive)
              args3 eq_refl eq_refl eq_refl) as [Hfit _].
  destruct (arity_truncation base3 20 10 [] (Subject 3 []) (Target 4 Passive)
              args3 eq_refl eq_refl eq_refl) as [_ Hreject].
  assert (function_arity (Target 1 Passive) ≤ sizeof_args (Subject 3 []))
    as Hle by (simpl; lia).
  assert (sizeof_args (Subject 3 []) < function_arity (Target 4 Passive))
    as Hlt by (simpl; lia).
  destruct (Hfit Hle) as (Htake & h & st' & Hc & _).
  destruct (Hreject Hlt) as (_ & Hrej).
  split; [reflexivity|]. split; [reflexivity|]. split; [reflexivity|].
  split; [exact Htake|]. split; [by exists h, st' | exact Hrej].
Defined.

Lemma relay_propagation_witness :
  inv relay_base
  ∧ owners relay_base !! 20 = Some [0]
  ∧ subjects relay_base !! 10 = Some (Subject 2 [])
  ∧ subjects relay_base !! 11 = Some (Subject 2 [0])
  ∧ ∃ h st1 st2,
      observer_owner.connect_subject 20 10 11 relay_base = Ok (h, st1)
      ∧ notify 2 10 [VInt 1; VStr "x"%string] st1 = Ok st2
      ∧ calls st2
        = calls relay_base
          ++ map (invocation relay_base [VInt 1; VStr "x"%string]) []
          ++ [(h, take 2 [VInt 1; VStr "x"%string])]
          ++ map (invocation relay_base (take 2 [VInt 1; VStr "x"%string])) [0].
Proof.
  assert (10 ≠ 11) as Hne by lia.
  assert (2 ≤ 2) as Hle by lia.
  assert (∀ h, h ∈ m_observers (Subject 2 []) →
            passive relay_base h
            ∧ arity_of relay_base h ≤ sizeof_args (Subject 2 [])) as HpA.
  { intros h Hh. simpl in Hh. by apply elem_of_nil in Hh. }
  assert (∀ h, h ∈ m_observers (Subject 2 [0]) →
            passive relay_base h
            ∧ arity_of relay_base h ≤ sizeof_args (Subject 2 [0])) as HpB.
  { intros h Hh. simpl in Hh. apply list_elem_of_singleton in Hh as ->.
    split; [by eexists | simpl; reflexivity]. }
  destruct (relay_propagation relay_base 20 10 11 [0] (Subject 2 [])
              (Subject 2 [0]) [VInt 1; VStr "x"%string] 0
              (wf_inv _ relay_base_wf) Hne eq_refl eq_refl eq_refl Hle eq_refl
              HpA HpB)
    as (h & st1 & st2 & H1 & _ & _ & _ & H5 & _ & H7 & _).
  split; [exact (wf_inv _ relay_base_wf)|].
  split; [reflexivity|]. split; [reflexivity|]. split; [reflexivity|].
  exists h, st1, st2. repeat (split; [assumption|]); assumption.
Defined.

Lemma notify_completed_pass_witness :
  notify 1 10 [VInt 42] one
    = Ok (with_calls [(0, [VInt 42])] one)
  ∧ dispatch (with_calls [(0, [VInt 42])] one) 10 = dispatch one 10
  ∧ ∃ new,
      calls (with_calls [(0, [VInt 42])] one) = calls one ++ new
      ∧ (∀ c, c ∈ new → is_Some (observers one !! c.1))
      ∧ (∀ h, h ∈ dispatch one 10 → ∃ a, (h, a) ∈ new)
      ∧ (∀ h : address, observers one !! h = None →
           observers (with_calls [(0, [VInt 42])] one) !! h = None).
Proof.
  assert (notify 1 10 [VInt 42] one = Ok (with_calls [(0, [VInt 42])] one))
    as Hn by reflexivity.
  split; [exact Hn|].
  exact (notify_completed_pass 1 10 [VInt 42] one _ Hn).
Defined.

Lemma dispatch_holds_owned_handles_witness :
  reachable one
  ∧ 0 ∈ dispatch one 10
  ∧ ¬ released one 0
  ∧ ∃ ob, observers one !! 0 = Some ob ∧ m_subject ob = 10
          ∧ 0 ∈ owned one (m_owner ob).
Proof.
  assert (0 ∈ dispatch one 10) as Hin by (change (0 ∈ [0]); left).
  split; [exact one_reachable|]. split; [exact Hin|].
  exact (dispatch_holds_owned_handles one 10 0 one_reachable Hin).
Defined.

(** * Further properties of the header *)

(** ** get_first *)

Lemma get_first_upto_beyond {A : Type} (m : nat) (t : list A) :
  length t < m → pg_detail.get_first_upto m t = None.
Proof.
  destruct m as [|m]; [lia|]. intros Hlt. simpl.
  rewrite (lookup_ge_None_2 t m) by lia.
  by destruct (pg_detail.get_first_upto m t).
Qed.

(** [get_first< N >( t )] compiles exactly for [-1 <= N < size], and is
    then the tuple of the elements [0..N]: empty at [N == -1], the whole
    tuple at [N == size - 1]; beyond the tuple [std::get] is refused, and
    below [-1] the recursion never reaches its end. *)
Theorem get_first_characterized {A : Type} (N : Z) (t : list A) (l : list A) :
  pg_detail.get_first N t = Some l
  ↔ (-1 ≤ N < Z.of_nat (length t))%Z ∧ l = take (Z.to_nat (N + 1)) t.
Proof.
  unfold pg_detail.get_first. destruct (Z.ltb_spec N (-1)) as [Hlt|Hge].
  - split; [done | lia].
  - destruct (decide (Z.to_nat (N + 1) ≤ length t)) as [Hle|Hgt].
    + rewrite get_first_upto_take by done. split.
      * intros [= <-]. split; [lia | done].
      * by intros [_ ->].
    + rewrite get_first_upto_beyond by lia. split; [done | lia].
Qed.

(** ** Stale handles *)

Lemma disconnect_dead (st : state) (o h : address) :
  observers st !! h = None → observer_owner.disconnect o h st = Undefined.
Proof.
  intros Hdead. unfold observer_owner.disconnect, remove_from_subject.
  by rewrite Hdead.
Qed.

(** A handle can be disconnected once: after a [disconnect( h )] that
    returned, the handle is destroyed, and a second [disconnect( h )],
    through whichever owner, is undefined behaviour. *)
Theorem disconnect_twice_undefined (st st' : state) (o h : address) :
  observer_owner.disconnect o h st = Ok st' →
  observers st' !! h = None
  ∧ ∀ o', observer_owner.disconnect o' h st' = Undefined.
Proof.
  intros Hd. apply disconnect_Ok in Hd as (_ & Hobs & _).
  assert (observers st' !! h = None) as Hdead.
  { rewrite Hobs. apply lookup_delete_eq. }
  split; [done|]. intros o'. by apply disconnect_dead.
Qed.

Lemma disconnect_twice_undefined_witness :
  observer_owner.disconnect 20 0 one = Ok (run (observer_owner.disconnect 20 0 one))
  ∧ observers (run (observer_owner.disconnect 20 0 one)) !! 0 = None
  ∧ ∀ o', observer_owner.disconnect o' 0
            (run (observer_owner.disconnect 20 0 one)) = Undefined.
Proof.
  assert (observer_owner.disconnect 20 0 one
          = Ok (run (observer_owner.disconnect 20 0 one))) as Hd by reflexivity.
  split; [exact Hd|].
  exact (disconnect_twice_undefined one _ 20 0 Hd).
Defined.

(** [disconnect] has to go through the owner that made the connection:
    through another owner the handle is taken out of its subject, and then
    the owner's [find] fails and [erase( end() )] is undefined
    behaviour. *)
Theorem disconnect_wrong_owner_undefined (st : state) (o o' h : address) :
  wf st →
  h ∈ owned st o →
  o' ≠ o →
  observer_owner.disconnect o' h st = Undefined.
Proof.
  intros Hwf Hin Hne.
  destruct (wf_owned_live st o h Hwf Hin) as (ob & Hob & Hsub).
  pose proof (inv_uniq _ (wf_inv _ Hwf)) as Hu.
  destruct (detach_shrinks st h ob Hu Hob Hsub)
    as (st1 & Hd & _ & _ & Hown & _).
  unfold observer_owner.disconnect. rewrite Hd. cbn [mbind result_bind].
  unfold observer_owner.remove_observer. rewrite Hown.
  destruct (owners st !! o') as [X'|] eqn:HX'; [|done]. cbn [deref mbind result_bind].
  rewrite bool_decide_eq_false_2; [done|]. intros HinX'.
  apply Hne. rewrite <- (uniq_own _ Hu o h ob Hin Hob). symmetry.
  apply (uniq_own _ Hu o' h ob); [|done]. by rewrite (owned_lookup _ _ _ HX').
Qed.

Lemma disconnect_wrong_owner_undefined_witness :
  wf (new_owner 21 one)
  ∧ 0 ∈ owned (new_owner 21 one) 20
  ∧ 21 ≠ 20
  ∧ observer_owner.disconnect 21 0 (new_owner 21 one) = Undefined.
Proof.
  assert (wf (new_owner 21 one)) as Hwf.
  { apply (wf_shrink [] one); [exact one_wf|]. by apply new_owner_shrinks. }
  assert (0 ∈ owned (new_owner 21 one) 20) as Hin by (change (0 ∈ [0]); left).
  assert (21 ≠ 20) as Hne by lia.
  split; [exact Hwf|]. split; [exact Hin|]. split; [exact Hne|].
  exact (disconnect_wrong_owner_undefined _ 20 21 0 Hwf Hin Hne).
Defined.

(** After a subject or an owner was destroyed, the handles it held are
    destroyed too: the tokens [connect] returned for them are stale, and
    [disconnect] on one of them is undefined behaviour. *)
Theorem disconnect_after_teardown_undefined (st st' : state) (x h : address) :
  inv st →
  (destroy_subject x st = Ok st' ∧ h ∈ dispatch st x)
  ∨ (observer_owner.destroy x st = Ok st' ∧ h ∈ owned st x
     ∧ ∀ h', h' ∈ owned st x → ¬ hidden st h') →
  observers st' !! h = None
  ∧ ∀ o, observer_owner.disconnect o h st' = Undefined.
Proof.
  intros Hinv Hcase.
  assert (observers st' !! h = None) as Hdead.
  { destruct Hcase as [[Hd Hin]|(Hd & Hin & Hhid)].
    - destruct (destroy_subject_inv _ _ _ Hinv Hd) as [_ Hsh].
      rewrite (sh_observers _ _ _ _ Hsh). by rewrite decide_True.
    - destruct (destroy_owner_inv _ _ _ Hinv Hhid Hd) as [_ Hsh].
      rewrite (sh_observers _ _ _ _ Hsh). by rewrite decide_True. }
  split; [done|]. intros o. by apply disconnect_dead.
Qed.

Lemma disconnect_after_teardown_undefined_witness :
  inv one
  ∧ destroy_subject 10 one = Ok (run (destroy_subject 10 one))
  ∧ 0 ∈ dispatch one 10
  ∧ observers (run (destroy_subject 10 one)) !! 0 = None
  ∧ ∀ o, observer_owner.disconnect o 0 (run (destroy_subject 10 one))
         = Undefined.
Proof.
  assert (destroy_subject 10 one = Ok (run (destroy_subject 10 one)))
    as Hd by reflexivity.
  assert (0 ∈ dispatch one 10) as Hin by (change (0 ∈ [0]); left).
  split; [exact (wf_inv _ one_wf)|]. split; [exact Hd|]. split; [exact Hin|].
  exact (disconnect_after_teardown_undefined one _ 10 0 (wf_inv _ one_wf)
           (or_introl (conj Hd Hin))).
Defined.

(** ** Blockers and teardown *)

Lemma block_Ok (st : state) (b s : address) (sub : subject) :
  subjects st !! s = Some sub →
  block b s st
  = Ok (with_blockers (λ m, <[b := Blocker s (m_observers sub)]> m)
         (with_subjects (λ m, <[s := Subject (sizeof_args sub) []]> m) st)).
Proof. intros Hs. unfold block. by rewrite Hs. Qed.

Lemma remove_from_subject_outcome (h : address) (st : state) :
  (∃ st', remove_from_subject h st = Ok st')
  ∨ remove_from_subject h st = Undefined.
Proof.
  unfold remove_from_subject.
  destruct (observers st !! h) as [ob|]; [|by right]. simpl.
  destruct (subjects st !! m_subject ob) as [sub|]; [|by right]. simpl.
  left. by eexists.
Qed.

Lemma remove_from_subject_dangling (h : address) (ob : observer) (st : state) :
  observers st !! h = Some ob →
  subjects st !! m_subject ob = None →
  remove_from_subject h st = Undefined.
Proof.
  intros Hob Hs. unfold remove_from_subject. rewrite Hob. simpl.
  by rewrite Hs.
Qed.

Lemma for_each_detach_outcome (L : list address) (st : state) :
  (∃ st', for_each remove_from_subject L st = Ok st')
  ∨ for_each remove_from_subject L st = Undefined.
Proof.
  revert st. induction L as [|h L IH]; intros st; simpl; [by left; eexists|].
  destruct (remove_from_subject_outcome h st) as [[st1 ->]| ->]; [|by right].
  apply IH.
Qed.

(** A disconnect while a blocker is alive is not seen by the restore: the
    handle is destroyed and leaves the ownership set, the emptied sequence
    has nothing to take out, and the destructor of the blocker puts the
    destroyed handle back into the dispatch sequence. *)
Theorem disconnect_during_block_dangles (st : state) (b s o h : address)
    (sub : subject) :
  wf st →
  subjects st !! s = Some sub →
  h ∈ m_observers sub →
  h ∈ owned st o →
  blockers st !! b = None →
  ∃ st1 st2 st3,
    block b s st = Ok st1
    ∧ observer_owner.disconnect o h st1 = Ok st2
    ∧ unblock b st2 = Ok st3
    ∧ dispatch st3 s = m_observers sub
    ∧ observers st3 !! h = None
    ∧ released st3 h.
Proof.
  intros Hwf Hs Hh Hown Hb.
  pose proof (block_Ok st b s sub Hs) as Hblock.
  set (st1 := with_blockers _ _) in Hblock.
  assert (inv st1) as Hinv1 by (by apply (block_inv b s st); [apply Hwf| |]).
  destruct (inv_own _ (wf_inv _ Hwf) _ _ Hown) as (ob & Hob & Hmo).
  assert (m_subject ob = s) as Hms.
  { apply (uniq_seq _ (inv_uniq _ (wf_inv _ Hwf)) s h ob); [|done].
    by rewrite (dispatch_lookup _ _ _ Hs). }
  destruct (disconnect_shrinks st1 o h ob (inv_uniq _ Hinv1))
    as (st2 & Hd & Hsh & _ & Hdom & _).
  { done. }
  { rewrite Hms. simpl. rewrite lookup_insert_eq. by eexists. }
  { done. }
  destruct (unblock_restores st2 b s (m_observers sub))
    as (st3 & Hu & Hd3 & Hobs3 & Hown3).
  { rewrite (sh_blockers _ _ _ _ Hsh). simpl. apply lookup_insert_eq. }
  { rewrite Hdom. simpl. rewrite lookup_insert_eq. by eexists. }
  exists st1, st2, st3. split; [done|]. split; [done|]. split; [done|].
  split; [done|].
  assert (observers st2 !! h = None) as Hdead.
  { rewrite (sh_observers _ _ _ _ Hsh). rewrite decide_True; [done | by left]. }
  split; [by rewrite Hobs3|].
  intros o'. rewrite (owned_same st2 st3) by done.
  rewrite (sh_owned _ _ _ _ Hsh), list_elem_of_filter.
  intros [Hno _]. apply Hno. by left.
Qed.

Lemma disconnect_during_block_dangles_witness :
  wf one
  ∧ subjects one !! 10 = Some (Subject 1 [0])
  ∧ 0 ∈ owned one 20
  ∧ blockers one !! 30 = None
  ∧ ∃ st1 st2 st3,
      block 30 10 one = Ok st1
      ∧ observer_owner.disconnect 20 0 st1 = Ok st2
      ∧ unblock 30 st2 = Ok st3
      ∧ dispatch st3 10 = [0]
      ∧ observers st3 !! 0 = None
      ∧ released st3 0.
Proof.
  assert (0 ∈ [0]) as Hin by left.
  assert (0 ∈ owned one 20) as Hown by exact Hin.
  split; [exact one_wf|]. split; [reflexivity|]. split; [exact Hown|].
  split; [reflexivity|].
  exact (disconnect_during_block_dangles one 30 10 20 0 (Subject 1 [0])
           one_wf eq_refl Hin Hown eq_refl).
Defined.

(** The order of destruction is not free while a blocker is alive: a
    subject destroyed under a blocker has an empty sequence to walk, so it
    releases no handle; the handles stay with their owners and refer to a
    subject that is gone, and then [disconnect], the destructor of the
    owner and the destructor of the blocker are all undefined
    behaviour. *)
Theorem destroy_blocked_subject_dangles (st : state) (b s o h : address)
    (sub : subject) :
  wf st →
  subjects st !! s = Some sub →
  h ∈ m_observers sub →
  h ∈ owned st o →
  blockers st !! b = None →
  ∃ st1 st2,
    block b s st = Ok st1
    ∧ destroy_subject s st1 = Ok st2
    ∧ observers st2 = observers st ∧ owners st2 = owners st
    ∧ freed st2 = freed st
    ∧ observer_owner.disconnect o h st2 = Undefined
    ∧ observer_owner.destroy o st2 = Undefined
    ∧ unblock b st2 = Undefined.
Proof.
  intros Hwf Hs Hh Hown Hb.
  pose proof (block_Ok st b s sub Hs) as Hblock.
  set (st1 := with_blockers _ _) in Hblock.
  assert (inv st1) as Hinv1 by (by apply (block_inv b s st); [apply Hwf| |]).
  assert (destroy_subject s st1 = Ok (with_subjects (delete s) st1)) as Hd.
  { unfold destroy_subject. simpl. by rewrite lookup_insert_eq. }
  set (st2 := with_subjects (delete s) st1) in *.
  destruct (destroy_subject_inv _ _ _ Hinv1 Hd) as [Hinv2 _].
  destruct (inv_own _ (wf_inv _ Hwf) _ _ Hown) as (ob & Hob & Hmo).
  assert (m_subject ob = s) as Hms.
  { apply (uniq_seq _ (inv_uniq _ (wf_inv _ Hwf)) s h ob); [|done].
    by rewrite (dispatch_lookup _ _ _ Hs). }
  assert (subjects st2 !! s = None) as Hgone.
  { simpl. apply lookup_delete_eq. }
  exists st1, st2. split; [done|]. split; [done|].
  split; [done|]. split; [done|]. split; [done|].
  split.
  { unfold observer_owner.disconnect.
    rewrite (remove_from_subject_dangling h ob st2); [done | done |].
    by rewrite Hms. }
  split.
  { unfold observer_owner.destroy. change (owners st2) with (owners st).
    apply elem_of_owned in Hown as (X & HX & HinX). rewrite HX. simpl.
    destruct (for_each_detach_outcome X st2) as [[st3 Hloop]|Hloop];
      [|by rewrite Hloop].
    destruct (for_each_detach_pre X st2 st3 (inv_uniq _ Hinv2) Hloop h HinX)
      as (ob' & Hob' & Hsub').
    change (observers st2) with (observers st) in Hob'.
    assert (ob' = ob) as -> by congruence.
    rewrite Hms, Hgone in Hsub'. by destruct Hsub'. }
  unfold unblock. simpl. rewrite lookup_insert_eq. simpl.
  by rewrite lookup_delete_eq.
Qed.

Lemma destroy_blocked_subject_dangles_witness :
  wf one
  ∧ subjects one !! 10 = Some (Subject 1 [0])
  ∧ 0 ∈ owned one 20
  ∧ blockers one !! 30 = None
  ∧ ∃ st1 st2,
      block 30 10 one = Ok st1
      ∧ destroy_subject 10 st1 = Ok st2
      ∧ observers st2 = observers one ∧ owners st2 = owners one
      ∧ freed st2 = freed one
      ∧ observer_owner.disconnect 20 0 st2 = Undefined
      ∧ observer_owner.destroy 20 st2 = Undefined
      ∧ unblock 30 st2 = Undefined.
Proof.
  assert (0 ∈ [0]) as Hin by left.
  assert (0 ∈ owned one 20) as Hown by exact Hin.
  split; [exact one_wf|]. split; [reflexivity|]. split; [exact Hown|].
  split; [reflexivity|].
  exact (destroy_blocked_subject_dangles one 30 10 20 0 (Subject 1 [0])
           one_wf eq_refl Hin Hown eq_refl).
Defined.

Lemma delete_two_inserted {V : Type} (m : gmap address V) (b1 b2 : address)
    (x y : V) (p q : address) :
  m !! b1 = None → m !! b2 = None →
  (p = b1 ∧ q = b2) ∨ (p = b2 ∧ q = b1) →
  delete p (delete q (<[b2 := x]> (<[b1 := y]> m))) = m.
Proof.
  intros H1 H2 Hpq. apply map_eq. intros i.
  rewrite !lookup_delete, !lookup_insert.
  destruct Hpq as [[-> ->]|[-> ->]]; repeat case_decide; congruence.
Qed.

(** Two blockers on one subject.  Destroyed in the reverse order of their
    construction they restore the state as it was; destroyed in the order
    of their construction the first restores the sequence and the second
    then replaces it by the empty one it had saved: the handles stay with
    their owners but are never dispatched again. *)
Theorem nested_blockers (st : state) (b1 b2 s : address) (sub : subject) :
  subjects st !! s = Some sub →
  blockers st !! b1 = None →
  blockers st !! b2 = None →
  b1 ≠ b2 →
  ∃ st1 st2,
    block b1 s st = Ok st1
    ∧ block b2 s st1 = Ok st2
    ∧ dispatch st2 s = []
    ∧ (∃ st3, unblock b2 st2 = Ok st3 ∧ dispatch st3 s = []
              ∧ unblock b1 st3 = Ok st)
    ∧ (∃ st3 st4,
          unblock b1 st2 = Ok st3 ∧ dispatch st3 s = m_observers sub
          ∧ unblock b2 st3 = Ok st4 ∧ dispatch st4 s = []
          ∧ observers st4 = observers st ∧ owners st4 = owners st
          ∧ blockers st4 = blockers st).
Proof.
  intros Hs Hb1 Hb2 Hne.
  pose proof (block_Ok st b1 s sub Hs) as H1.
  set (st1 := with_blockers _ _) in H1.
  assert (subjects st1 !! s = Some (Subject (sizeof_args sub) [])) as Hs1.
  { simpl. apply lookup_insert_eq. }
  pose proof (block_Ok st1 b2 s _ Hs1) as H2.
  set (st2 := with_blockers _ _) in H2.
  exists st1, st2. split; [done|]. split; [done|].
  split; [unfold dispatch; simpl; by rewrite lookup_insert_eq|].
  split.
  - eexists. split.
    { unfold unblock. simpl. rewrite lookup_insert_eq. simpl.
      rewrite lookup_insert_eq. done. }
    split; [unfold dispatch; simpl; by rewrite lookup_insert_eq|].
    unfold unblock. simpl.
    rewrite lookup_delete_ne, lookup_insert_ne, lookup_insert_eq by done.
    simpl. rewrite lookup_insert_eq. simpl.
    f_equal. apply state_eq; simpl; try done.
    + rewrite !insert_insert_eq. apply insert_id. by destruct sub.
    + apply delete_two_inserted; auto.
  - eexists _, _. split.
    { unfold unblock. simpl. rewrite lookup_insert_ne, lookup_insert_eq by done.
      simpl. rewrite lookup_insert_eq. done. }
    split; [unfold dispatch; simpl; by rewrite lookup_insert_eq|].
    split.
    { unfold unblock. simpl.
      rewrite lookup_delete_ne, lookup_insert_eq by done. simpl.
      rewrite lookup_insert_eq. done. }
    split; [unfold dispatch; simpl; by rewrite lookup_insert_eq|].
    split; [done|]. split; [done|]. simpl.
    apply delete_two_inserted; auto.
Qed.

Lemma nested_blockers_witness :
  subjects one !! 10 = Some (Subject 1 [0])
  ∧ blockers one !! 30 = None
  ∧ blockers one !! 31 = None
  ∧ 30 ≠ 31
  ∧ ∃ st1 st2,
      block 30 10 one = Ok st1
      ∧ block 31 10 st1 = Ok st2
      ∧ dispatch st2 10 = []
      ∧ (∃ st3, unblock 31 st2 = Ok st3 ∧ dispatch st3 10 = []
                ∧ unblock 30 st3 = Ok one)
      ∧ (∃ st3 st4,
            unblock 30 st2 = Ok st3 ∧ dispatch st3 10 = [0]
            ∧ unblock 31 st3 = Ok st4 ∧ dispatch st4 10 = []
            ∧ observers st4 = observers one ∧ owners st4 = owners one
            ∧ blockers st4 = blockers one).
Proof.
  assert (30 ≠ 31) as Hne by lia.
  split; [reflexivity|]. split; [reflexivity|]. split; [reflexivity|].
  split; [exact Hne|].
  exact (nested_blockers one 30 31 10 (Subject 1 [0])
           eq_refl eq_refl eq_refl Hne).
Defined.
